(** * MySQL SET codec (sqlalchemy/dialects/mysql/enumerated.py)

    A shallow embedding of [SET.__init__], [SET.bind_processor] and
    [SET.result_processor], with the Python object store written out as
    explicit state, and the properties of the codec proved over it. *)

From Stdlib Require Import ZArith String Ascii.
From stdpp Require Import base gmap sets list strings fin_maps.

Local Open Scope string_scope.
Local Open Scope Z_scope.

(** ** Python values *)

(** A [str] is held as the bytes of its UTF-8 form. The comma is one byte
    and no byte of a longer character equals it, so splitting and joining
    on commas act on the bytes as they do on the characters; only [len]
    has to tell characters from bytes ([py_len]). *)

(** Hashable scalars: what may be a dict key, a dict value or a set member
    in this module. [_bitmap] mixes both kinds as keys and as values. *)
Inductive atom : Type :=
  | AStr (s : string)
  | AInt (n : Z).

#[global] Instance atom_eq_dec : EqDecision atom.
Proof. solve_decision. Defined.

#[global] Instance atom_countable : Countable atom :=
  inj_countable'
    (λ a, match a with AStr s => inl s | AInt n => inr n end)
    (λ x, match x with inl s => AStr s | inr n => AInt n end)
    (λ a, match a with AStr _ => eq_refl | AInt _ => eq_refl end).

#[global] Instance AStr_inj : Inj (=) (=) AStr.
Proof. by intros s t [= ->]. Qed.

(** Identity of a mutable [set] object. *)
Definition loc : Type := positive.

(** A value handed to or returned by a processor: [None], an [int] or a
    [str], or a reference to a [set] object living in the store. *)
Inductive pyval : Type :=
  | PNone
  | PAtom (a : atom)
  | PRef (l : loc).

Abbreviation PInt n := (PAtom (AInt n)).
Abbreviation PStr s := (PAtom (AStr s)).

Inductive exn : Type :=
  | ArgumentError
  | KeyError
  | TypeError
  | ValueError
  | AttributeError
  (* a reference to no object: cannot arise in Python, kept so that store
     lookups are total *)
  | DanglingRef.

Inductive res (A : Type) : Type :=
  | Ok (a : A)
  | Raise (e : exn).
Arguments Ok {A} a.
Arguments Raise {A} e.

(** ** The configured type object *)

Record SET : Type := mkSET {
  retrieve_as_bitwise : bool;
  values : list string;
  (* the attribute exists only when [retrieve_as_bitwise] is set *)
  _bitmap : option (gmap atom atom);
  length : nat
}.

(** Keyword arguments of the constructor that this module looks at. *)
Record kwargs : Type := mkKw {
  kw_retrieve_as_bitwise : option bool;
  kw_length : option nat
}.

(** [enumerate(xs)], counting from [start]. *)
Fixpoint enumerate_from {A} (start : nat) (xs : list A) : list (nat * A) :=
  match xs with
  | [] => []
  | x :: xs' => (start, x) :: enumerate_from (S start) xs'
  end.

Definition enumerate {A} (xs : list A) : list (nat * A) := enumerate_from 0 xs.

Definition pow2 (idx : nat) : Z := 2 ^ Z.of_nat idx.

(** [d.update(pairs)] and the dict comprehension alike store the pairs left
    to right, a later pair replacing an earlier one with the same key. *)
Definition dict_update (d : gmap atom atom) (pairs : list (atom * atom))
  : gmap atom atom :=
  foldl (λ acc kv, <[kv.1 := kv.2]> acc) d pairs.

(** Lines 156-161: [{value: 2**idx ...}] then [.update((2**idx, value) ...)]. *)
Definition build_bitmap (vals : list string) : gmap atom atom :=
  let d := dict_update ∅
             ((λ iv : nat * string, (AStr iv.2, AInt (pow2 iv.1))) <$> enumerate vals) in
  dict_update d
    ((λ iv : nat * string, (AInt (pow2 iv.1), AStr iv.2)) <$> enumerate vals).

(** [len(s)] for a [str]. A string is held here as the bytes of its UTF-8
    form, and Python counts code points: every byte but those that continue
    a character, which are the bytes from [0x80] to [0xBF]. *)
Definition is_continuation (c : ascii) : bool :=
  let n := nat_of_ascii c in (128 <=? n)%nat && (n <? 192)%nat.

Fixpoint py_len (s : string) : nat :=
  match s with
  | EmptyString => 0%nat
  | String c s' => if is_continuation c then py_len s' else S (py_len s')
  end.

(** [max([len(v) for v in values] + [0])] *)
Definition max_len (vals : list string) : nat :=
  foldr Nat.max 0%nat ((py_len <$> vals) ++ [0%nat]).

(** [SET.__init__(self, *values, **kw)]. The base initialiser
    ([_StringType.__init__], outside this module) only records the remaining
    keyword arguments; [length] is the one kept here. *)
Definition SET_init (vals : list string) (kw : kwargs) : res SET :=
  let bitwise := default false (kw_retrieve_as_bitwise kw) in
  if negb bitwise && bool_decide ("" ∈ vals) then Raise ArgumentError
  else
    let bitmap := if bitwise then Some (build_bitmap vals) else None in
    let len := default (max_len vals) (kw_length kw) in
    Ok (mkSET bitwise vals bitmap len).

Definition kw_bitwise (b : bool) : kwargs := mkKw (Some b) None.
Definition kw_default : kwargs := mkKw None None.

(** ** The store, and the monad the processors run in *)

(** What a call can see and change: the type object [self] and the [set]
    objects reachable from the values passed around. *)
Record world : Type := mkWorld {
  self : SET;
  heap : gmap loc (gset atom)
}.

(** State and exceptions; the state survives an exception. *)
Definition M (A : Type) : Type := world → res A * world.

#[global] Instance M_ret : MRet M := λ A a w, (Ok a, w).
#[global] Instance M_bind : MBind M := λ A B f m w,
  match m w with
  | (Ok a, w') => f a w'
  | (Raise e, w') => (Raise e, w')
  end.

Definition raise {A} (e : exn) : M A := λ w, (Raise e, w).
Definition lift {A} (r : res A) : M A := λ w, (r, w).
Definition get_self : M SET := λ w, (Ok (self w), w).

(** [self._bitmap] *)
Definition get_bitmap : M (gmap atom atom) :=
  s ← get_self;
  match _bitmap s with
  | Some d => mret d
  | None => raise AttributeError
  end.

Definition deref (l : loc) : M (gset atom) := λ w,
  match heap w !! l with
  | Some X => (Ok X, w)
  | None => (Raise DanglingRef, w)
  end.

(** [set(xs)]: a new object. *)
Definition new_set (xs : list atom) : M pyval := λ w,
  let l := fresh (dom (heap w)) in
  (Ok (PRef l), mkWorld (self w) (<[l := list_to_set xs]> (heap w))).

(** [value.discard(x)]: in place. *)
Definition discard (l : loc) (x : atom) : M unit := λ w,
  match heap w !! l with
  | Some X => (Ok tt, mkWorld (self w) (<[l := X ∖ {[x]}]> (heap w)))
  | None => (Raise DanglingRef, w)
  end.

(** [for x in xs: acc = body(acc, x)] *)
Fixpoint for_fold {A B} (body : B → A → M B) (acc : B) (xs : list A) : M B :=
  match xs with
  | [] => mret acc
  | x :: xs' => acc' ← body acc x; for_fold body acc' xs'
  end.

(** Applying a function to every element in turn, stopping at the first
    exception. *)
Fixpoint mapM_res {A B} (f : A → res B) (xs : list A) : res (list B) :=
  match xs with
  | [] => Ok []
  | x :: xs' =>
    match f x with
    | Raise e => Raise e
    | Ok y => match mapM_res f xs' with
              | Raise e => Raise e
              | Ok ys => Ok (y :: ys)
              end
    end
  end.

(** ** Builtins used by the processors *)

(** [d[k]], that is [d.__getitem__(k)]. *)
Definition dict_getitem (d : gmap atom atom) (k : atom) : res atom :=
  match d !! k with
  | Some v => Ok v
  | None => Raise KeyError
  end.

(** [a |= b] with [a] an [int]. *)
Definition py_ior (a : Z) (b : atom) : res Z :=
  match b with
  | AInt n => Ok (Z.lor a n)
  | AStr _ => Raise TypeError
  end.

(** [sep.join(xs)]: every item has to be a [str]. *)
Definition as_str (a : atom) : res string :=
  match a with
  | AStr s => Ok s
  | AInt _ => Raise TypeError
  end.

Definition str_join (sep : string) (xs : list atom) : res string :=
  match mapM_res as_str xs with
  | Ok ss => Ok (String.concat sep ss)
  | Raise e => Raise e
  end.

Definition is_comma (c : ascii) : bool := Ascii.eqb c ","%char.

Definition flush (cur : string) : list string :=
  match cur with
  | EmptyString => []
  | _ => [cur]
  end.

(** [re.findall(r"[^,]+", s)]: the maximal runs of characters other than a
    comma, left to right. [cur] is the run being read. *)
Fixpoint findall_from (cur : string) (s : string) : list string :=
  match s with
  | EmptyString => flush cur
  | String c s' =>
    if is_comma c then (flush cur ++ findall_from "" s')%list
    else findall_from (cur +:+ String c "") s'
  end.

Definition re_findall_not_comma (v : pyval) : res (list string) :=
  match v with
  | PStr s => Ok (findall_from "" s)
  | _ => Raise TypeError
  end.

(** The set bits of [n] at positions below [k], lowest first, as bit values. *)
Definition bits_below (k : nat) (n : Z) : list Z :=
  pow2 <$> filter (λ i : nat, Z.testbit n (Z.of_nat i) = true) (seq 0 k).

(** Modelled from the spec: [util.map_bits] (sqlalchemy/util/langhelpers.py,
    not among the sources here). "For each set bit in the integer, look up
    the label via the bit→label inverse map", failing as soon as a lookup
    fails. A non-negative [n] has no set bit above position [Z.log2 n]. A
    negative [n] has every bit above [Z.log2 (Z.abs n)] set, an endless
    run; it is followed for [horizon] positions, which the caller chooses
    so that [fn] has failed by then (for the lookup in a finite map, one
    more than its size: [result_process_bitwise_negative]). *)
Definition map_bits {A} (horizon : nat) (fn : Z → res A) (n : Z) : res (list A) :=
  mapM_res fn (bits_below (Z.to_nat (Z.log2 (Z.abs n)) + 1 + horizon) n).

(** [int_value |= self._bitmap[v]], the body of the loop at lines 217-218. *)
Definition ior_member (int_value : Z) (v : atom) : M Z :=
  d ← get_bitmap;
  b ← lift (dict_getitem d v);
  lift (py_ior int_value b).

(** ** The processors *)

Section Processors.

(** What [super().bind_processor(dialect)] and
    [super().result_processor(dialect, coltype)] return: the string type's
    own charset-level converter, or [None]. They live in the base class,
    outside this module, and are only ever applied to [None], an [int] or
    a [str]. *)
Variable super_bind : option (pyval → pyval).
Variable super_result : option (pyval → pyval).

(** [int(s)] for a [str]: the builtin's parsing is not modelled. *)
Variable int_str : string → res Z.

(** The order in which iterating a [set] yields its members. Python leaves
    it unspecified; all that is known, and assumed where it matters, is that
    each member comes once: [iter_order X ≡ₚ elements X]. *)
Variable iter_order : gset atom → list atom.

(** [if super_convert: return super_convert(value) else: return value] *)
Definition convert (super_convert : option (pyval → pyval)) (v : pyval) : pyval :=
  match super_convert with
  | Some f => f v
  | None => v
  end.

(** [int(value)] *)
Definition py_int (v : pyval) : M Z :=
  match v with
  | PInt n => mret n
  | PStr s => lift (int_str s)
  | PNone | PRef _ => raise TypeError
  end.

(** The members of the set at [l], in iteration order. *)
Definition iterate (l : loc) : M (list atom) :=
  X ← deref l; mret (iter_order X).

(** Lines 177-183. *)
Definition result_process_bitwise (value : pyval) : M pyval :=
  match value with
  | PNone => mret PNone
  | _ =>
    n ← py_int value;
    d ← get_bitmap;
    labels ← lift (map_bits (S (size d)) (dict_getitem d ∘ AInt) n);
    new_set labels
  end.

(** Lines 188-199. *)
Definition result_process_string (value : pyval) : M pyval :=
  match value with
  | PStr _ =>
    frags ← lift (re_findall_not_comma (convert super_result value));
    new_set (AStr <$> frags)
  | PNone => mret PNone
  | PInt _ => raise AttributeError
  | PRef l => _ ← discard l (AStr ""); mret (PRef l)
  end.

(** [SET.result_processor]: the mode is read once, when the processor is
    made. *)
Definition result_processor : M (pyval → M pyval) :=
  s ← get_self;
  mret (if retrieve_as_bitwise s then result_process_bitwise
        else result_process_string).

(** Lines 207-219. *)
Definition bind_process_bitwise (value : pyval) : M pyval :=
  match value with
  | PNone => mret PNone
  | PAtom _ => mret (convert super_bind value)
  | PRef l =>
    xs ← iterate l;
    int_value ← for_fold ior_member 0 xs;
    mret (PInt int_value)
  end.

(** Lines 223-231. *)
Definition bind_process_string (value : pyval) : M pyval :=
  value' ← match value with
           | PRef l => xs ← iterate l; s ← lift (str_join "," xs); mret (PStr s)
           | _ => mret value
           end;
  mret (convert super_bind value').

(** [SET.bind_processor] *)
Definition bind_processor : M (pyval → M pyval) :=
  s ← get_self;
  mret (if retrieve_as_bitwise s then bind_process_bitwise
        else bind_process_string).

(** One round through a processor: make it, then call it on [value]. *)
Definition encode (value : pyval) : M pyval :=
  process ← bind_processor; process value.

Definition decode (value : pyval) : M pyval :=
  process ← result_processor; process value.

End Processors.

(** A LabelSet: a set all of whose members are label strings. *)
Definition labels (S : gset string) : gset atom := set_map AStr S.

(** [n] distinct labels ["", "a", "aa", ...], for vocabularies of any size. *)
Fixpoint label_n (i : nat) : string :=
  match i with
  | O => ""
  | S i' => String "a"%char (label_n i')
  end.
Definition vocabulary_of_size (n : nat) : list string := label_n <$> seq 0 n.

(** [s.split(",")]: the naive split that the comment at lines 195-196 speaks
    of, empty fragments included. [cur] is the fragment being read. *)
Fixpoint split_from (cur : string) (s : string) : list string :=
  match s with
  | EmptyString => [cur]
  | String c s' =>
    if is_comma c then cur :: split_from "" s'
    else split_from (cur +:+ String c "") s'
  end.

(** A label that can stand in a comma-joined string. *)
Fixpoint comma_free (s : string) : bool :=
  match s with
  | EmptyString => true
  | String c s' => negb (is_comma c) && comma_free s'
  end.

(** The bit value a member contributes to the mask, and the mask that the
    loop of the bitmask bind processor builds from [acc] over [xs]. *)
Definition bit_of (d : gmap atom atom) (v : atom) : Z :=
  match d !! v with
  | Some (AInt n) => n
  | _ => 0
  end.

Definition mask_of (d : gmap atom atom) (acc : Z) (xs : list atom) : Z :=
  foldl (λ a v, Z.lor a (bit_of d v)) acc xs.

(** The strings among the members of a set. *)
Definition atom_str (a : atom) : option string :=
  match a with
  | AStr s => Some s
  | AInt _ => None
  end.

Definition strs (X : gset atom) : gset string := set_omap atom_str X.

(** ** Construction *)

Section Dict.

Implicit Types (d : gmap atom atom) (ps : list (atom * atom)) (k v : atom).

Lemma dict_update_cons d p ps :
  dict_update d (p :: ps) = dict_update (<[p.1 := p.2]> d) ps.
Proof. reflexivity. Qed.

(** A key that no pair mentions keeps its entry. *)
Lemma dict_update_lookup_other d ps k :
  k ∉ ps.*1 → dict_update d ps !! k = d !! k.
Proof.
  revert d. induction ps as [|p ps IH]; intros d Hk; [done|].
  rewrite fmap_cons in Hk. apply not_elem_of_cons in Hk as [Hne Hk].
  rewrite dict_update_cons, IH by done.
  by apply lookup_insert_ne.
Qed.

(** Whatever is found afterwards was there before or comes from a pair. *)
Lemma dict_update_lookup_Some d ps k v :
  dict_update d ps !! k = Some v → (k, v) ∈ ps ∨ d !! k = Some v.
Proof.
  revert d. induction ps as [|[k' v'] ps IH]; intros d Hl; [by right|].
  rewrite dict_update_cons in Hl. destruct (IH _ Hl) as [Hin|Hd].
  - left. by right.
  - simpl in Hd. destruct (decide (k' = k)) as [->|Hne].
    + rewrite lookup_insert_eq in Hd. injection Hd as ->. left. by left.
    + rewrite lookup_insert_ne in Hd by done. by right.
Qed.

(** A key that some pair mentions ends up bound to the value of one of its
    pairs. *)
Lemma dict_update_lookup_key d ps k :
  k ∈ ps.*1 → ∃ v, (k, v) ∈ ps ∧ dict_update d ps !! k = Some v.
Proof.
  revert d. induction ps as [|[k' v'] ps IH]; intros d Hk.
  - by apply elem_of_nil in Hk.
  - rewrite dict_update_cons. destruct (decide (k ∈ ps.*1)) as [Hin|Hnin].
    + destruct (IH (<[k' := v']> d) Hin) as (v & Hv & Hl).
      exists v. split; [by right | done].
    + rewrite fmap_cons in Hk. apply elem_of_cons in Hk as [->|Hk]; [|done].
      exists v'. split; [by left|].
      rewrite dict_update_lookup_other by done. apply lookup_insert_eq.
Qed.

Lemma dict_update_lookup_fun d ps k v :
  (k, v) ∈ ps → (∀ v', (k, v') ∈ ps → v' = v) →
  dict_update d ps !! k = Some v.
Proof.
  intros Hin Hfun.
  destruct (dict_update_lookup_key d ps k) as (v' & Hv' & Hl).
  - apply list_elem_of_fmap. by exists (k, v).
  - by rewrite Hl, (Hfun _ Hv').
Qed.

End Dict.

Lemma elem_of_enumerate_from {A} (xs : list A) (start i : nat) (x : A) :
  (i, x) ∈ enumerate_from start xs ↔
  ∃ j : nat, i = (start + j)%nat ∧ xs !! j = Some x.
Proof.
  revert start. induction xs as [|y xs IH]; intros start; simpl.
  - split; [by intros ?%elem_of_nil | by intros (j & _ & ?)].
  - rewrite elem_of_cons, IH. split.
    + intros [[= -> ->]|(j & -> & Hj)].
      * exists 0%nat. split; [lia | done].
      * exists (S j). split; [lia | done].
    + intros ([|j] & -> & Hj); simpl in Hj.
      * left. injection Hj as ->. f_equal. lia.
      * right. exists j. split; [lia | done].
Qed.

Lemma elem_of_enumerate {A} (xs : list A) (i : nat) (x : A) :
  (i, x) ∈ enumerate xs ↔ xs !! i = Some x.
Proof.
  unfold enumerate. rewrite elem_of_enumerate_from. split.
  - by intros (j & -> & Hj).
  - intros Hi. by exists i.
Qed.

Lemma pow2_pos (i : nat) : 0 < pow2 i.
Proof. unfold pow2. apply Z.pow_pos_nonneg; lia. Qed.

#[global] Instance pow2_inj : Inj (=) (=) pow2.
Proof.
  intros i j Hij. unfold pow2 in Hij.
  apply Z.pow_inj_r in Hij; lia.
Qed.

Section Bitmap.

Variable vals : list string.

(** The inverse map: [2**i] is bound to the label at position [i]. *)
Lemma build_bitmap_bit (i : nat) (v : string) :
  vals !! i = Some v → build_bitmap vals !! AInt (pow2 i) = Some (AStr v).
Proof.
  intros Hi. unfold build_bitmap. apply dict_update_lookup_fun.
  - apply list_elem_of_fmap. exists (i, v). split; [done|].
    by apply elem_of_enumerate.
  - intros v' ([j u] & [= Hj ->] & Hju%elem_of_enumerate)%list_elem_of_fmap.
    simpl in *. apply (inj pow2) in Hj as <-. congruence.
Qed.

(** Integer keys are exactly the assigned bit values. *)
Lemma build_bitmap_int_key (z : Z) (x : atom) :
  build_bitmap vals !! AInt z = Some x →
  ∃ (i : nat) (v : string), z = pow2 i ∧ vals !! i = Some v ∧ x = AStr v.
Proof.
  unfold build_bitmap. intros [Hin|Hd]%dict_update_lookup_Some.
  - apply list_elem_of_fmap in Hin as ([i v] & [= -> ->] & Hiv%elem_of_enumerate).
    by exists i, v.
  - apply dict_update_lookup_Some in Hd as [Hin|Hd]; [|done].
    by apply list_elem_of_fmap in Hin as ([i v] & [=] & _).
Qed.

(** A label is bound to the bit value of a position where it stands. *)
Lemma build_bitmap_label (v : string) :
  v ∈ vals →
  ∃ i : nat, vals !! i = Some v ∧ build_bitmap vals !! AStr v = Some (AInt (pow2 i)).
Proof.
  intros (i & Hi)%list_elem_of_lookup. unfold build_bitmap.
  rewrite dict_update_lookup_other.
  2: { intros ([k x] & Hk & ([j u] & [= -> ->] & _)%list_elem_of_fmap)%list_elem_of_fmap.
       discriminate. }
  edestruct (dict_update_lookup_key ∅) as (x & Hx & ->).
  - apply list_elem_of_fmap. exists (AStr v, AInt (pow2 i)). split; [done|].
    apply list_elem_of_fmap. exists (i, v). split; [done|].
    by apply elem_of_enumerate.
  - apply list_elem_of_fmap in Hx as ([j u] & [= -> ->] & Hj%elem_of_enumerate).
    by exists j.
Qed.

Lemma build_bitmap_str_key (v : string) (x : atom) :
  build_bitmap vals !! AStr v = Some x →
  ∃ i : nat, vals !! i = Some v ∧ x = AInt (pow2 i).
Proof.
  unfold build_bitmap. intros [Hin|Hd]%dict_update_lookup_Some.
  - by apply list_elem_of_fmap in Hin as ([i u] & [=] & _).
  - apply dict_update_lookup_Some in Hd as [Hin|Hd]; [|done].
    apply list_elem_of_fmap in Hin as ([i u] & [= -> ->] & Hiu%elem_of_enumerate).
    by exists i.
Qed.

Lemma build_bitmap_label_None (v : string) :
  v ∉ vals → build_bitmap vals !! AStr v = None.
Proof.
  intros Hv. destruct (build_bitmap vals !! AStr v) as [x|] eqn:Hx; [|done].
  apply build_bitmap_str_key in Hx as (i & Hi & _).
  destruct Hv. apply list_elem_of_lookup. by exists i.
Qed.

(** With distinct labels the position is the label's own. *)
Lemma build_bitmap_label_NoDup (i : nat) (v : string) :
  NoDup vals → vals !! i = Some v →
  build_bitmap vals !! AStr v = Some (AInt (pow2 i)).
Proof.
  intros Hnd Hi.
  destruct (build_bitmap_label v) as (j & Hj & ->).
  - apply list_elem_of_lookup. by exists i.
  - by rewrite (NoDup_lookup _ _ _ _ Hnd Hj Hi).
Qed.

End Bitmap.

Lemma SET_init_bitwise (vals : list string) (kw : kwargs) :
  kw_retrieve_as_bitwise kw = Some true →
  SET_init vals kw =
    Ok (mkSET true vals (Some (build_bitmap vals))
          (default (max_len vals) (kw_length kw))).
Proof. intros Hb. unfold SET_init. by rewrite Hb. Qed.

Lemma SET_init_Ok (vals : list string) (kw : kwargs) (cfg : SET) :
  SET_init vals kw = Ok cfg →
  values cfg = vals ∧
  retrieve_as_bitwise cfg = default false (kw_retrieve_as_bitwise kw) ∧
  _bitmap cfg = (if retrieve_as_bitwise cfg then Some (build_bitmap vals) else None) ∧
  (retrieve_as_bitwise cfg = false → "" ∉ vals).
Proof.
  unfold SET_init.
  destruct (default false (kw_retrieve_as_bitwise kw)) eqn:Hb; simpl.
  - intros [= <-]. by simpl.
  - case_bool_decide as Hblank; [done|]. intros [= <-]. by simpl.
Qed.

(** C3. Bit assignment: over a vocabulary of distinct labels, construction
    with [retrieve_as_bitwise=True] binds the label at position [i] to
    [2^i] and [2^i] back to that label; the bit values assigned along the
    vocabulary are [2^0, ..., 2^(n-1)] in order, pairwise distinct. *)
Theorem bit_assignment (vals : list string) (kw : kwargs) :
  NoDup vals → kw_retrieve_as_bitwise kw = Some true →
  ∃ cfg d,
    SET_init vals kw = Ok cfg ∧ _bitmap cfg = Some d ∧
    (∀ (i : nat) (v : string), vals !! i = Some v →
       d !! AStr v = Some (AInt (2 ^ Z.of_nat i)) ∧
       d !! AInt (2 ^ Z.of_nat i) = Some (AStr v)) ∧
    (λ v, d !! AStr v) <$> vals =
      (λ i : nat, Some (AInt (2 ^ Z.of_nat i))) <$> seq 0 (List.length vals) ∧
    NoDup ((λ v, d !! AStr v) <$> vals).
Proof.
  intros Hnd Hkw. rewrite (SET_init_bitwise _ _ Hkw).
  eexists _, _. split; [done|]. split; [done|]. simpl.
  assert (Heq : (λ v, build_bitmap vals !! AStr v) <$> vals =
                (λ i : nat, Some (AInt (2 ^ Z.of_nat i))) <$> seq 0 (List.length vals)).
  { apply list_eq. intros i. rewrite !list_lookup_fmap.
    destruct (vals !! i) as [v|] eqn:Hi; simpl.
    - rewrite lookup_seq_lt by eauto using lookup_lt_Some. simpl.
      by rewrite (build_bitmap_label_NoDup vals i v).
    - by rewrite lookup_seq_ge by by apply lookup_ge_None. }
  split; [|split; [done|]].
  - intros i v Hi. split.
    + by apply build_bitmap_label_NoDup.
    + by apply build_bitmap_bit.
  - rewrite Heq. apply NoDup_fmap_2; [|apply NoDup_seq].
    intros i j [= Hij]. by apply (inj pow2).
Qed.

Lemma bit_assignment_witness :
  ∃ cfg d,
    SET_init ["a"; "b"; "c"] (kw_bitwise true) = Ok cfg ∧ _bitmap cfg = Some d ∧
    d !! AStr "c" = Some (AInt 4) ∧ d !! AInt 4 = Some (AStr "c").
Proof.
  destruct (bit_assignment ["a"; "b"; "c"] (kw_bitwise true))
    as (cfg & d & Hinit & Hd & Hbits & _).
  - compute_done.
  - reflexivity.
  - exists cfg, d. split; [done|]. split; [done|]. by apply (Hbits 2%nat "c").
Defined.

(** C4. Blank-label rule: a vocabulary holding [""] is refused with
    [ArgumentError] unless [retrieve_as_bitwise] is given as true (the flag
    left out counts as false), and is accepted when it is. *)
Theorem blank_label_rule (vals : list string) (len : option nat) :
  "" ∈ vals →
  SET_init vals (mkKw (Some false) len) = Raise ArgumentError ∧
  SET_init vals (mkKw None len) = Raise ArgumentError ∧
  ∃ cfg, SET_init vals (mkKw (Some true) len) = Ok cfg ∧
         values cfg = vals ∧ retrieve_as_bitwise cfg = true.
Proof.
  intros Hblank. unfold SET_init; simpl.
  rewrite bool_decide_eq_true_2 by done. simpl.
  split; [done|]. split; [done|]. by eexists.
Qed.

Lemma blank_label_rule_witness :
  SET_init ["a"; ""] (mkKw (Some false) None) = Raise ArgumentError ∧
  SET_init ["a"; ""] (mkKw None None) = Raise ArgumentError ∧
  ∃ cfg, SET_init ["a"; ""] (mkKw (Some true) None) = Ok cfg ∧
         values cfg = ["a"; ""] ∧ retrieve_as_bitwise cfg = true.
Proof. apply (blank_label_rule ["a"; ""] None). compute_done. Defined.

Lemma vocabulary_of_size_length (n : nat) :
  List.length (vocabulary_of_size n) = n.
Proof. unfold vocabulary_of_size. by rewrite length_fmap, length_seq. Qed.

Lemma vocabulary_of_size_NoDup (n : nat) : NoDup (vocabulary_of_size n).
Proof.
  apply NoDup_fmap_2; [|apply NoDup_seq].
  intros i. induction i as [|i IH]; intros [|j] Hij; try done.
  injection Hij as Hij. f_equal. by apply IH.
Qed.

(** C6, as the claim has it, fails: no width bounds the vocabulary. Whatever
    width is proposed, a vocabulary of distinct labels longer than it is
    accepted; one of 65 labels is, with bit value [2^64] for the last. *)
Lemma no_width_raises :
  ¬ (∃ width : nat, ∀ (vals : list string) (kw : kwargs),
        NoDup vals → kw_retrieve_as_bitwise kw = Some true →
        (width < List.length vals)%nat →
        ∃ e, SET_init vals kw = Raise e).
Proof.
  intros (width & Hraise).
  destruct (Hraise (vocabulary_of_size (S width)) (kw_bitwise true)) as (e & He).
  - apply vocabulary_of_size_NoDup.
  - reflexivity.
  - rewrite vocabulary_of_size_length. lia.
  - by rewrite SET_init_bitwise in He.
Qed.

(** C6, amended. The vocabulary's length never makes construction fail: in
    bitmask mode every vocabulary is accepted, each position [i] getting the
    unbounded integer [2^i] bound back to its label, and the one failure of
    construction is the blank label outside bitmask mode. *)
Theorem no_width_limit (vals : list string) (kw : kwargs) :
  kw_retrieve_as_bitwise kw = Some true →
  (∃ cfg d,
     SET_init vals kw = Ok cfg ∧ _bitmap cfg = Some d ∧
     ∀ (i : nat) (v : string), vals !! i = Some v →
       d !! AInt (2 ^ Z.of_nat i) = Some (AStr v)) ∧
  (∀ (kw' : kwargs) (e : exn), SET_init vals kw' = Raise e →
     e = ArgumentError ∧ "" ∈ vals ∧
     default false (kw_retrieve_as_bitwise kw') = false).
Proof.
  intros Hkw. split.
  - rewrite (SET_init_bitwise _ _ Hkw). eexists _, _.
    split; [done|]. split; [done|]. apply build_bitmap_bit.
  - intros kw' e. unfold SET_init.
    destruct (default false (kw_retrieve_as_bitwise kw')); simpl; [done|].
    case_bool_decide; [|done]. by intros [= <-].
Qed.

Lemma no_width_limit_witness :
  ∃ cfg d,
    SET_init (vocabulary_of_size 65) (kw_bitwise true) = Ok cfg ∧
    _bitmap cfg = Some d ∧
    d !! AInt (2 ^ 64) = Some (AStr (label_n 64)).
Proof.
  destruct (no_width_limit (vocabulary_of_size 65) (kw_bitwise true))
    as ((cfg & d & Hinit & Hd & Hbits) & _).
  - reflexivity.
  - exists cfg, d. split; [done|]. split; [done|].
    apply (Hbits 64%nat). reflexivity.
Defined.

(** ** Running the processors *)

Lemma elem_of_labels (S : gset string) (a : atom) :
  a ∈ labels S ↔ ∃ s, a = AStr s ∧ s ∈ S.
Proof. unfold labels. apply elem_of_map. Qed.

Lemma for_fold_cons {A B} (body : B → A → M B) (acc : B) (x : A) (xs : list A)
    (w : world) :
  for_fold body acc (x :: xs) w =
    match body acc x w with
    | (Ok acc', w') => for_fold body acc' xs w'
    | (Raise e, w') => (Raise e, w')
    end.
Proof. reflexivity. Qed.

Lemma ior_member_eq (d : gmap atom atom) (a : Z) (v : atom) (w : world) :
  _bitmap (self w) = Some d →
  ior_member a v w =
    (match d !! v with
     | Some (AInt n) => Ok (Z.lor a n)
     | Some (AStr _) => Raise TypeError
     | None => Raise KeyError
     end, w).
Proof.
  intros Hd. unfold ior_member, get_bitmap, get_self, mbind, M_bind, lift.
  rewrite Hd. unfold mret, M_ret, dict_getitem.
  destruct (d !! v) as [[s|n]|]; reflexivity.
Qed.

(** The loop over members all of which the map binds to an integer. *)
Lemma ior_loop_ok (d : gmap atom atom) (w : world) (xs : list atom) (acc : Z) :
  _bitmap (self w) = Some d →
  Forall (λ v, ∃ n, d !! v = Some (AInt n)) xs →
  for_fold ior_member acc xs w = (Ok (mask_of d acc xs), w).
Proof.
  intros Hd Hxs. revert acc. induction Hxs as [|v xs (n & Hn) _ IH]; intros acc.
  - reflexivity.
  - rewrite for_fold_cons, (ior_member_eq d) by done. rewrite Hn, IH.
    unfold mask_of, bit_of. simpl. by rewrite Hn.
Qed.

(** The loop over members one of which the map does not know. *)
Lemma ior_loop_raise (d : gmap atom atom) (w : world) (xs : list atom) (acc : Z) :
  _bitmap (self w) = Some d →
  Forall (λ v, d !! v = None ∨ ∃ n, d !! v = Some (AInt n)) xs →
  Exists (λ v, d !! v = None) xs →
  for_fold ior_member acc xs w = (Raise KeyError, w).
Proof.
  intros Hd Hxs. revert acc.
  induction Hxs as [|v xs Hv _ IH]; intros acc Hex.
  - by apply Exists_nil in Hex.
  - rewrite for_fold_cons, (ior_member_eq d) by done.
    destruct Hv as [Hv|(n & Hv)]; rewrite Hv; [done|].
    apply IH. apply Exists_cons in Hex as [Hex|Hex]; [congruence|done].
Qed.

(** What the built map does with the members of a LabelSet. *)
Lemma build_bitmap_labels (vals : list string) (S : gset string) (xs : list atom) :
  (∀ a, a ∈ xs → a ∈ labels S) →
  Forall (λ v, build_bitmap vals !! v = None ∨
               ∃ n, build_bitmap vals !! v = Some (AInt n)) xs.
Proof.
  intros Hxs. apply Forall_forall. intros a (s & -> & _)%Hxs%elem_of_labels.
  destruct (build_bitmap vals !! AStr s) as [x|] eqn:Hx; [|by left].
  apply build_bitmap_str_key in Hx as (i & _ & ->). right. by eexists.
Qed.

Lemma mapM_res_cons {A B} (f : A → res B) (x : A) (xs : list A) :
  mapM_res f (x :: xs) =
    match f x with
    | Raise e => Raise e
    | Ok y => match mapM_res f xs with
              | Raise e => Raise e
              | Ok ys => Ok (y :: ys)
              end
    end.
Proof. reflexivity. Qed.

Lemma mapM_res_as_str (ss : list string) :
  mapM_res as_str (AStr <$> ss) = Ok ss.
Proof.
  induction ss as [|s ss IH]; [done|].
  by rewrite fmap_cons, mapM_res_cons, IH.
Qed.

Lemma str_join_strs (sep : string) (ss : list string) :
  str_join sep (AStr <$> ss) = Ok (String.concat sep ss).
Proof. unfold str_join. by rewrite mapM_res_as_str. Qed.

Lemma all_strs (xs : list atom) :
  (∀ a, a ∈ xs → ∃ s, a = AStr s) → ∃ ss, xs = AStr <$> ss.
Proof.
  induction xs as [|a xs IH]; intros Hxs.
  - by exists [].
  - destruct (Hxs a) as (s & ->); [by left|].
    destruct IH as (ss & ->); [intros b Hb; apply Hxs; by right|].
    by exists (s :: ss).
Qed.

(** ** Bits and masks *)

Lemma elem_of_bits_below (k : nat) (n b : Z) :
  b ∈ bits_below k n ↔
  ∃ i : nat, (i < k)%nat ∧ Z.testbit n (Z.of_nat i) = true ∧ b = pow2 i.
Proof.
  unfold bits_below. rewrite list_elem_of_fmap. split.
  - intros (i & -> & [Ht Hi%elem_of_seq]%list_elem_of_filter).
    exists i. split; [lia | done].
  - intros (i & Hi & Ht & ->). exists i. split; [done|].
    apply list_elem_of_filter. split; [done|]. apply elem_of_seq. lia.
Qed.

Lemma bits_below_0 (k : nat) : bits_below k 0 = [].
Proof.
  apply elem_of_nil_inv. intros b (i & _ & Ht & _)%elem_of_bits_below.
  by rewrite Z.bits_0 in Ht.
Qed.

(** Every set bit of a non-negative integer lies within the positions that
    [map_bits] walks. *)
Lemma set_bit_below (n : Z) (i h : nat) :
  0 ≤ n → Z.testbit n (Z.of_nat i) = true →
  (i < Z.to_nat (Z.log2 (Z.abs n)) + 1 + h)%nat.
Proof.
  intros Hn Ht. rewrite Z.abs_eq by done.
  destruct (decide (Z.log2 n < Z.of_nat i)) as [Hlt|Hge].
  - by rewrite Z.bits_above_log2 in Ht.
  - pose proof (Z.log2_nonneg n). lia.
Qed.

Lemma mapM_res_ok {A B} (f : A → res B) (xs : list A) :
  (∀ x, x ∈ xs → ∃ y, f x = Ok y) →
  ∃ ys, mapM_res f xs = Ok ys ∧ ∀ y, y ∈ ys ↔ ∃ x, x ∈ xs ∧ f x = Ok y.
Proof.
  induction xs as [|x xs IH]; intros Hxs.
  - exists []. split; [done|]. intros y. split.
    + by intros ?%elem_of_nil.
    + by intros (x & ?%elem_of_nil & _).
  - destruct (Hxs x) as (y & Hy); [by left|].
    destruct IH as (ys & Hys & Hmem); [intros z Hz; apply Hxs; by right|].
    exists (y :: ys). rewrite mapM_res_cons, Hy, Hys. split; [done|].
    intros y'. rewrite elem_of_cons, Hmem. split.
    + intros [->|(z & Hz & Hfz)]; [exists x | exists z];
        (split; [|done]); [by left | by right].
    + intros (z & [->|Hz]%elem_of_cons & Hfz).
      * left. congruence.
      * right. by exists z.
Qed.

Lemma mapM_res_raise {A B} (f : A → res B) (xs : list A) (e0 : exn) :
  (∀ x e, f x = Raise e → e = e0) →
  (∃ x e, x ∈ xs ∧ f x = Raise e) →
  mapM_res f xs = Raise e0.
Proof.
  intros Honly. induction xs as [|x xs IH]; intros (z & e & Hz & Hfz).
  - by apply elem_of_nil in Hz.
  - rewrite mapM_res_cons. destruct (f x) as [y|e'] eqn:Hfx.
    + rewrite IH; [done|]. exists z, e. split; [|done].
      apply elem_of_cons in Hz as [->|Hz]; [congruence | done].
    + by rewrite (Honly _ _ Hfx).
Qed.

Lemma mask_of_cons (d : gmap atom atom) (acc : Z) (v : atom) (xs : list atom) :
  mask_of d acc (v :: xs) = mask_of d (Z.lor acc (bit_of d v)) xs.
Proof. reflexivity. Qed.

Lemma mask_of_nonneg (d : gmap atom atom) (acc : Z) (xs : list atom) :
  Forall (λ v, 0 ≤ bit_of d v) xs → 0 ≤ acc → 0 ≤ mask_of d acc xs.
Proof.
  intros Hxs. revert acc. induction Hxs as [|v xs Hv _ IH]; intros acc Hacc.
  - done.
  - rewrite mask_of_cons. apply IH. by apply Z.lor_nonneg.
Qed.

(** A bit of the mask comes from the start value or from a member. *)
Lemma mask_of_testbit (d : gmap atom atom) (acc : Z) (xs : list atom) (j : Z) :
  Z.testbit (mask_of d acc xs) j = true ↔
  Z.testbit acc j = true ∨ ∃ v, v ∈ xs ∧ Z.testbit (bit_of d v) j = true.
Proof.
  revert acc. induction xs as [|x xs IH]; intros acc.
  - split; [by left|]. intros [?|(v & ?%elem_of_nil & _)]; done.
  - rewrite mask_of_cons, IH, Z.lor_spec, orb_true_iff. split.
    + intros [[Hacc|Hx]|(v & Hv & Hbit)].
      * by left.
      * right. exists x. split; [by left | done].
      * right. exists v. split; [by right | done].
    + intros [Hacc|(v & [->|Hv]%elem_of_cons & Hbit)].
      * left. by left.
      * left. by right.
      * right. by exists v.
Qed.

Lemma pow2_testbit (i j : nat) :
  Z.testbit (pow2 i) (Z.of_nat j) = true ↔ i = j.
Proof.
  unfold pow2. rewrite Z.pow2_bits_eqb by lia. rewrite Z.eqb_eq. lia.
Qed.

Lemma new_set_eq (ys : list atom) (w : world) :
  new_set ys w =
    (Ok (PRef (fresh (dom (heap w)))),
     mkWorld (self w) (<[fresh (dom (heap w)) := list_to_set ys]> (heap w))).
Proof. reflexivity. Qed.

Lemma fresh_loc_None (h : gmap loc (gset atom)) : h !! fresh (dom h) = None.
Proof. apply not_elem_of_dom, is_fresh. Qed.

(** ** Splitting and joining *)

Lemma append_cons (c : ascii) (s t : string) :
  String c s +:+ t = String c (s +:+ t).
Proof. reflexivity. Qed.

Lemma append_empty_l (t : string) : "" +:+ t = t.
Proof. reflexivity. Qed.

Lemma append_snoc (cur : string) (c : ascii) (x : string) :
  (cur +:+ String c "") +:+ x = cur +:+ String c x.
Proof.
  induction cur as [|c' cur IH]; [done|]. by rewrite !append_cons, IH.
Qed.

Lemma append_not_empty (cur : string) (c : ascii) : cur +:+ String c "" ≠ "".
Proof. by destruct cur. Qed.

Lemma findall_from_cons (cur : string) (c : ascii) (s : string) :
  findall_from cur (String c s) =
    if is_comma c then (flush cur ++ findall_from "" s)%list
    else findall_from (cur +:+ String c "") s.
Proof. reflexivity. Qed.

(** No fragment is empty. *)
Lemma findall_from_not_empty (cur s : string) :
  Forall (λ t, t ≠ "") (findall_from cur s).
Proof.
  assert (Hflush : ∀ t, Forall (λ t, t ≠ "") (flush t)).
  { intros [|c t]; simpl; [done|]. by apply Forall_singleton. }
  revert cur. induction s as [|c s IH]; intros cur; [apply Hflush|].
  rewrite findall_from_cons. destruct (is_comma c); [|apply IH].
  apply Forall_app. split; [apply Hflush | apply IH].
Qed.

(** The fragments found are those of the naive split, the empty ones
    dropped. *)
Lemma findall_from_split (cur s : string) :
  findall_from cur s = filter (λ t, t ≠ "") (split_from cur s).
Proof.
  assert (Hflush : ∀ t, flush t = filter (λ t, t ≠ "") [t]) by by intros [|c t].
  revert cur. induction s as [|c s IH]; intros cur; [apply Hflush|].
  rewrite findall_from_cons. simpl. destruct (is_comma c); [|apply IH].
  by rewrite IH, Hflush, <- filter_app.
Qed.

(** A comma-free stretch joins the run being read. *)
Lemma findall_from_run (cur x s : string) :
  comma_free x = true →
  findall_from cur (x +:+ s) = findall_from (cur +:+ x) s.
Proof.
  revert cur. induction x as [|c x IH]; intros cur Hx.
  - rewrite append_empty_l. f_equal. induction cur as [|c' cur IHc]; [done|].
    by rewrite append_cons, <- IHc.
  - simpl in Hx. apply andb_true_iff in Hx as [Hc%negb_true_iff Hx].
    rewrite append_cons, findall_from_cons, Hc, IH by done.
    by rewrite append_snoc.
Qed.

Lemma findall_from_all (x : string) :
  x ≠ "" → comma_free x = true → findall_from "" x = [x].
Proof.
  intros Hne Hx.
  assert (Hr : x = x +:+ "").
  { clear. induction x as [|c x IH]; [done|]. by rewrite append_cons, <- IH. }
  rewrite Hr at 1. rewrite findall_from_run, append_empty_l by done.
  by destruct x.
Qed.

(** Splitting a comma join of non-empty comma-free labels gives them back. *)
Lemma findall_join (ss : list string) :
  Forall (λ t, t ≠ "" ∧ comma_free t = true) ss →
  findall_from "" (String.concat "," ss) = ss.
Proof.
  induction 1 as [|x ss [Hne Hx] Hss IH]; [done|].
  destruct ss as [|y ss]; [by apply findall_from_all|].
  change (String.concat "," (x :: y :: ss))
    with (x +:+ String ","%char (String.concat "," (y :: ss))).
  rewrite findall_from_run, append_empty_l by done.
  rewrite findall_from_cons. change (is_comma ","%char) with true.
  cbn match. rewrite IH. by destruct x.
Qed.

(** ** What a call leaves alone *)




(** Past the top bit of its magnitude, a negative integer has every bit set. *)
Lemma negative_bit_set (n : Z) (i : nat) :
  n < 0 → (Z.to_nat (Z.log2 (Z.abs n)) < i)%nat →
  Z.testbit n (Z.of_nat i) = true.
Proof.
  intros Hn Hi. apply Z.bits_above_log2_neg; [done|].
  pose proof (Z.log2_le_mono (Z.pred (- n)) (Z.abs n)) as Hle.
  pose proof (Z.log2_nonneg (Z.abs n)). lia.
Qed.

(** A finite map cannot bind more distinct bit values than it has entries:
    among [size d + 1] consecutive positions one has no entry. *)
Lemma unlabelled_bit (d : gmap atom atom) (start : nat) :
  ∃ i : nat, (start ≤ i < start + S (size d))%nat ∧ d !! AInt (pow2 i) = None.
Proof.
  set (pos := seq start (S (size d))).
  destruct (decide (Exists (λ i, d !! AInt (pow2 i) = None) pos)) as [Hex|Hall].
  - apply Exists_exists in Hex as (i & Hi%elem_of_seq & Hnone). by exists i.
  - apply not_Exists_Forall in Hall; [|apply _]. exfalso.
    assert (Hsub : (list_to_set ((AInt ∘ pow2) <$> pos) : gset atom) ⊆ dom d).
    { intros k (i & -> & Hi)%elem_of_list_to_set%list_elem_of_fmap.
      apply elem_of_dom. apply (proj1 (Forall_forall _ _) Hall) in Hi.
      unfold compose in *. destruct (d !! AInt (pow2 i)) as [x|]; [by exists x | done]. }
    apply subseteq_size in Hsub. rewrite size_dom, size_list_to_set in Hsub.
    + rewrite length_fmap in Hsub. unfold pos in Hsub.
      rewrite length_seq in Hsub. lia.
    + apply NoDup_fmap_2; [|apply NoDup_seq].
      intros i j [= Hij]. by apply (inj pow2).
Qed.

Section Codec.

Variable super_bind : option (pyval → pyval).
Variable super_result : option (pyval → pyval).
Variable int_str : string → res Z.
Variable iter_order : gset atom → list atom.
Hypothesis iter_order_perm : ∀ X, iter_order X ≡ₚ elements X.

Lemma elem_of_iter_order (X : gset atom) (a : atom) :
  a ∈ iter_order X ↔ a ∈ X.
Proof using iter_order_perm. by rewrite iter_order_perm, elem_of_elements. Qed.

Lemma list_to_set_iter_order (X : gset atom) :
  list_to_set (iter_order X) = X.
Proof.
  apply set_eq. intros a. by rewrite elem_of_list_to_set, elem_of_iter_order.
Qed.

Lemma encode_eq (v : pyval) (w : world) :
  encode super_bind iter_order v w =
    if retrieve_as_bitwise (self w)
    then bind_process_bitwise super_bind iter_order v w
    else bind_process_string super_bind iter_order v w.
Proof using Type.
  unfold encode, bind_processor, get_self, mbind, M_bind, mret, M_ret.
  by destruct (retrieve_as_bitwise (self w)).
Qed.

Lemma decode_eq (v : pyval) (w : world) :
  decode super_result int_str v w =
    if retrieve_as_bitwise (self w)
    then result_process_bitwise int_str v w
    else result_process_string super_result v w.
Proof using Type.
  unfold decode, result_processor, get_self, mbind, M_bind, mret, M_ret.
  by destruct (retrieve_as_bitwise (self w)).
Qed.

Lemma iterate_eq (l : loc) (X : gset atom) (w : world) :
  heap w !! l = Some X → iterate iter_order l w = (Ok (iter_order X), w).
Proof using Type.
  intros Hl. unfold iterate, deref, mbind, M_bind. by rewrite Hl.
Qed.

Lemma bind_process_bitwise_set (l : loc) (X : gset atom) (w : world) :
  heap w !! l = Some X →
  bind_process_bitwise super_bind iter_order (PRef l) w =
    match for_fold ior_member 0 (iter_order X) w with
    | (Ok n, w') => (Ok (PInt n), w')
    | (Raise e, w') => (Raise e, w')
    end.
Proof using Type.
  intros Hl. unfold bind_process_bitwise, mbind, M_bind.
  rewrite (iterate_eq l X) by done.
  by destruct (for_fold ior_member 0 (iter_order X) w) as [[n|e] w'].
Qed.

Lemma bind_process_string_set (l : loc) (X : gset atom) (w : world) :
  heap w !! l = Some X →
  bind_process_string super_bind iter_order (PRef l) w =
    match str_join "," (iter_order X) with
    | Ok s => (Ok (convert super_bind (PStr s)), w)
    | Raise e => (Raise e, w)
    end.
Proof using Type.
  intros Hl. unfold bind_process_string, mbind, M_bind.
  rewrite (iterate_eq l X) by done. unfold lift.
  by destruct (str_join "," (iter_order X)).
Qed.

(** The members of a LabelSet, in the order they are iterated. *)
Lemma iter_order_labels (S : gset string) :
  ∃ ss, iter_order (labels S) = AStr <$> ss ∧ ∀ s, s ∈ ss ↔ s ∈ S.
Proof using iter_order_perm.
  destruct (all_strs (iter_order (labels S))) as (ss & Hss).
  - intros a (s & -> & _)%elem_of_iter_order%elem_of_labels. by exists s.
  - exists ss. split; [done|]. intros s.
    rewrite <- (list_elem_of_fmap_inj AStr), <- Hss, elem_of_iter_order.
    rewrite elem_of_labels. split.
    + by intros (s' & [= <-] & Hs).
    + intros Hs. by exists s.
Qed.

(** C10. In bitmask mode the bind processor hands [None] back as it is,
    changing nothing. *)
Theorem bind_bitwise_None (w : world) :
  retrieve_as_bitwise (self w) = true →
  encode super_bind iter_order PNone w = (Ok PNone, w).
Proof using Type. intros Hb. by rewrite encode_eq, Hb. Qed.

(** C5, amended. In bitmask mode, encoding a LabelSet with a member
    outside the vocabulary raises [KeyError] and yields no storage value.
    In string mode the members are not looked up: the encoding is their
    comma join, handed to the base converter. *)
Theorem invalid_member_rejected (vals : list string) (kw : kwargs) (cfg : SET)
    (h : gmap loc (gset atom)) (l : loc) (S : gset string) (u : string) :
  SET_init vals kw = Ok cfg →
  h !! l = Some (labels S) → u ∈ S → u ∉ vals →
  (retrieve_as_bitwise cfg = true →
     encode super_bind iter_order (PRef l) (mkWorld cfg h)
     = (Raise KeyError, mkWorld cfg h)) ∧
  (retrieve_as_bitwise cfg = false →
     ∃ ss, iter_order (labels S) = AStr <$> ss ∧
     encode super_bind iter_order (PRef l) (mkWorld cfg h)
     = (Ok (convert super_bind (PStr (String.concat "," ss))), mkWorld cfg h)).
Proof using iter_order_perm.
  intros Hinit Hl Hu Hnot.
  destruct (SET_init_Ok _ _ _ Hinit) as (_ & _ & Hd & _).
  split; intros Hb; rewrite encode_eq; cbn [self]; rewrite Hb in *.
  - rewrite (bind_process_bitwise_set l (labels S)) by done.
    rewrite (ior_loop_raise (build_bitmap vals)); [done|done| |].
    + apply (build_bitmap_labels vals S). intros a. by rewrite elem_of_iter_order.
    + apply Exists_exists. exists (AStr u). split.
      * apply elem_of_iter_order, elem_of_labels. by exists u.
      * by apply build_bitmap_label_None.
  - rewrite (bind_process_string_set l (labels S)) by done.
    destruct (iter_order_labels S) as (ss & Hss & _). exists ss.
    split; [done|]. by rewrite Hss, str_join_strs.
Qed.

Lemma result_process_bitwise_int (d : gmap atom atom) (n : Z) (w : world) :
  _bitmap (self w) = Some d →
  result_process_bitwise int_str (PInt n) w =
    match map_bits (S (size d)) (dict_getitem d ∘ AInt) n with
    | Ok labels => new_set labels w
    | Raise e => (Raise e, w)
    end.
Proof using Type.
  intros Hd.
  unfold result_process_bitwise, py_int, get_bitmap, get_self, mbind, M_bind,
    mret, M_ret, lift.
  rewrite Hd. by destruct (map_bits _ _ n).
Qed.

(** Decoding a non-negative integer whose set bits all fall on vocabulary
    positions: a new set holding the labels at those positions. *)
Lemma result_process_bitwise_ok (vals : list string) (n : Z) (w : world) :
  _bitmap (self w) = Some (build_bitmap vals) →
  0 ≤ n →
  (∀ i : nat, Z.testbit n (Z.of_nat i) = true → is_Some (vals !! i)) →
  ∃ (l' : loc) (X' : gset atom),
    result_process_bitwise int_str (PInt n) w
    = (Ok (PRef l'), mkWorld (self w) (<[l' := X']> (heap w))) ∧
    heap w !! l' = None ∧
    ∀ a, a ∈ X' ↔
         ∃ (i : nat) (v : string),
           Z.testbit n (Z.of_nat i) = true ∧ vals !! i = Some v ∧ a = AStr v.
Proof using Type.
  intros Hd Hn Hbits.
  rewrite (result_process_bitwise_int _ _ _ Hd). unfold map_bits.
  edestruct (mapM_res_ok (dict_getitem (build_bitmap vals) ∘ AInt))
    as (ys & -> & Hys).
  { intros b (i & _ & Ht & ->)%elem_of_bits_below.
    destruct (Hbits i Ht) as (v & Hv). exists (AStr v).
    unfold compose, dict_getitem. by rewrite (build_bitmap_bit vals i v). }
  rewrite new_set_eq. eexists _, _. split; [done|].
  split; [apply fresh_loc_None|].
  intros a. rewrite elem_of_list_to_set, Hys. split.
  - intros (b & (i & _ & Ht & ->)%elem_of_bits_below & Hb).
    destruct (Hbits i Ht) as (v & Hv). exists i, v.
    unfold compose, dict_getitem in Hb.
    rewrite (build_bitmap_bit vals i v) in Hb by done. by injection Hb as <-.
  - intros (i & v & Ht & Hv & ->). exists (pow2 i). split.
    + apply elem_of_bits_below. exists i. eauto using set_bit_below.
    + unfold compose, dict_getitem. by rewrite (build_bitmap_bit vals i v).
Qed.

(** A negative integer never decodes: one of its endlessly many set bits has
    no label, within the positions that are walked. *)
Lemma result_process_bitwise_negative (d : gmap atom atom) (n : Z) (w : world) :
  _bitmap (self w) = Some d → n < 0 →
  result_process_bitwise int_str (PInt n) w = (Raise KeyError, w).
Proof using Type.
  intros Hd Hn. rewrite (result_process_bitwise_int d) by done.
  unfold map_bits. rewrite (mapM_res_raise _ _ KeyError); [done| |].
  - intros b e. unfold compose, dict_getitem.
    destruct (d !! AInt b); [done|]. by intros [= <-].
  - destruct (unlabelled_bit d (Z.to_nat (Z.log2 (Z.abs n)) + 1))
      as (i & Hi & Hnone).
    exists (pow2 i), KeyError. split.
    + apply elem_of_bits_below. exists i. split; [lia|]. split; [|done].
      apply negative_bit_set; [done | lia].
    + unfold compose, dict_getitem. by rewrite Hnone.
Qed.

(** The mask that encoding a LabelSet from the vocabulary builds: bit [i]
    is set exactly when the label at position [i] is a member. *)
Lemma mask_of_labels (vals : list string) (S : gset string) (i : nat) :
  (∀ s, s ∈ S → s ∈ vals) →
  Z.testbit (mask_of (build_bitmap vals) 0 (iter_order (labels S))) (Z.of_nat i)
    = true ↔
  ∃ s, s ∈ S ∧ build_bitmap vals !! AStr s = Some (AInt (pow2 i)).
Proof using iter_order_perm.
  intros Hsub. rewrite mask_of_testbit, Z.bits_0. split.
  - intros [?|(a & (s & -> & Hs)%elem_of_iter_order%elem_of_labels & Hbit)];
      [done|].
    destruct (build_bitmap_label vals s (Hsub s Hs)) as (j & Hj & Hd).
    unfold bit_of in Hbit. rewrite Hd in Hbit.
    apply pow2_testbit in Hbit as ->. by exists s.
  - intros (s & Hs & Hd). right. exists (AStr s). split.
    + apply elem_of_iter_order, elem_of_labels. by exists s.
    + unfold bit_of. rewrite Hd. by apply pow2_testbit.
Qed.

Lemma mask_of_labels_nonneg (vals : list string) (S : gset string) :
  0 ≤ mask_of (build_bitmap vals) 0 (iter_order (labels S)).
Proof using iter_order_perm.
  apply mask_of_nonneg; [|done]. apply Forall_forall.
  intros a (s & -> & _)%elem_of_iter_order%elem_of_labels. unfold bit_of.
  destruct (build_bitmap vals !! AStr s) as [x|] eqn:Hx; [|done].
  apply build_bitmap_str_key in Hx as (i & _ & ->).
  pose proof (pow2_pos i). lia.
Qed.

(** C1. Bitmask-mode round trip: a LabelSet drawn from the vocabulary is
    encoded, without any change to the store, as an integer that decodes
    to a set with the same members; the empty set is encoded as [0], and
    [0] decodes to the empty set. *)
Theorem bitmask_round_trip (vals : list string) (kw : kwargs) (cfg : SET)
    (h : gmap loc (gset atom)) (l : loc) (S : gset string) :
  SET_init vals kw = Ok cfg → retrieve_as_bitwise cfg = true →
  h !! l = Some (labels S) → (∀ s, s ∈ S → s ∈ vals) →
  (∃ (n : Z) (l' : loc) (w' : world),
     encode super_bind iter_order (PRef l) (mkWorld cfg h)
     = (Ok (PInt n), mkWorld cfg h) ∧
     decode super_result int_str (PInt n) (mkWorld cfg h)
     = (Ok (PRef l'), w') ∧
     heap w' !! l' = Some (labels S) ∧
     (S = ∅ → n = 0)) ∧
  (∃ (l0 : loc) (w0 : world),
     decode super_result int_str (PInt 0) (mkWorld cfg h)
     = (Ok (PRef l0), w0) ∧
     heap w0 !! l0 = Some ∅).
Proof using iter_order_perm.
  intros Hinit Hb Hl Hsub.
  destruct (SET_init_Ok _ _ _ Hinit) as (_ & _ & Hd & _). rewrite Hb in Hd.
  set (d := build_bitmap vals) in *.
  set (n := mask_of d 0 (iter_order (labels S))).
  assert (Hmask : ∀ i : nat, Z.testbit n (Z.of_nat i) = true ↔
            ∃ s, s ∈ S ∧ d !! AStr s = Some (AInt (pow2 i)))
    by (intros i; by apply mask_of_labels).
  split.
  - destruct (result_process_bitwise_ok vals n (mkWorld cfg h))
      as (l' & X' & Hdec & _ & HX'); [done|apply mask_of_labels_nonneg|..].
    { intros i (s & _ & (j & Hj & [= ->%(inj pow2)])%build_bitmap_str_key)%Hmask.
      by exists s. }
    exists n, l', (mkWorld cfg (<[l' := X']> h)). split; [|split; [|split]].
    + rewrite encode_eq. cbn [self]. rewrite Hb.
      rewrite (bind_process_bitwise_set l (labels S)) by done.
      rewrite (ior_loop_ok d); [done|done|].
      apply Forall_forall.
      intros a (s & -> & Hs)%elem_of_iter_order%elem_of_labels.
      destruct (build_bitmap_label vals s (Hsub s Hs)) as (i & _ & Hi).
      by eexists.
    + rewrite decode_eq. cbn [self]. by rewrite Hb.
    + cbn [heap]. rewrite lookup_insert_eq. f_equal. apply set_eq. intros a.
      rewrite HX', elem_of_labels. split.
      * intros (i & v & (s & Hs & Hds)%Hmask & Hv & ->).
        apply build_bitmap_str_key in Hds as (j & Hj & [= ->%(inj pow2)]).
        exists s. split; [congruence | done].
      * intros (s & -> & Hs).
        destruct (build_bitmap_label vals s (Hsub s Hs)) as (i & Hi & Hdi).
        exists i, s. split; [|done]. apply Hmask. by exists s.
    + intros ->. subst n. unfold labels. rewrite set_map_empty.
      pose proof (iter_order_perm ∅) as Hperm. rewrite elements_empty in Hperm.
      apply Permutation_nil_r in Hperm. by rewrite Hperm.
  - rewrite decode_eq. cbn [self]. rewrite Hb.
    rewrite (result_process_bitwise_int d) by done.
    unfold map_bits. rewrite bits_below_0. cbn [mapM_res].
    rewrite new_set_eq. eexists _, _. split; [done|].
    cbn [heap]. by rewrite lookup_insert_eq.
Qed.

(** C8. Invalid-bit rejection: in bitmask mode, decoding a non-negative
    integer with a set bit at a position that holds no vocabulary label
    raises [KeyError], which reaches the caller; no set is made and the
    store is left as it was. *)
Theorem invalid_bit_rejected (vals : list string) (kw : kwargs) (cfg : SET)
    (h : gmap loc (gset atom)) (n : Z) (i : nat) :
  SET_init vals kw = Ok cfg → retrieve_as_bitwise cfg = true →
  0 ≤ n → Z.testbit n (Z.of_nat i) = true → vals !! i = None →
  decode super_result int_str (PInt n) (mkWorld cfg h)
  = (Raise KeyError, mkWorld cfg h).
Proof using Type.
  intros Hinit Hb Hn Ht Hi.
  destruct (SET_init_Ok _ _ _ Hinit) as (_ & _ & Hd & _). rewrite Hb in Hd.
  rewrite decode_eq. cbn [self]. rewrite Hb.
  rewrite (result_process_bitwise_int (build_bitmap vals)) by done.
  unfold map_bits. rewrite (mapM_res_raise _ _ KeyError); [done| |].
  - intros b e. unfold compose, dict_getitem.
    destruct (build_bitmap vals !! AInt b); [done|]. by intros [= <-].
  - exists (pow2 i), KeyError. split.
    + apply elem_of_bits_below. exists i. eauto using set_bit_below.
    + unfold compose, dict_getitem.
      destruct (build_bitmap vals !! AInt (pow2 i)) as [x|] eqn:Hx; [|done].
      apply build_bitmap_int_key in Hx as (j & v & ->%(inj pow2) & Hj & _).
      congruence.
Qed.

Lemma result_process_string_str (s : string) (w : world) :
  result_process_string super_result (PStr s) w =
    match re_findall_not_comma (convert super_result (PStr s)) with
    | Ok frags => new_set (AStr <$> frags) w
    | Raise e => (Raise e, w)
    end.
Proof using Type.
  unfold result_process_string, mbind, M_bind, lift.
  by destruct (re_findall_not_comma _).
Qed.

(** C7. Driver-quirk tolerance: in string mode, decoding a string makes a
    new set of the fragments that splitting on commas gives of what the
    base converter hands over, the empty fragments dropped, so that no
    member is empty; when that is [""], as for the raw string [""] under a
    converter that keeps it (or no converter), the set is empty. *)
Theorem decode_discards_empty_fragments (w : world) (s s' : string) :
  retrieve_as_bitwise (self w) = false →
  convert super_result (PStr s) = PStr s' →
  ∃ (l' : loc) (X' : gset atom),
    decode super_result int_str (PStr s) w
    = (Ok (PRef l'), mkWorld (self w) (<[l' := X']> (heap w))) ∧
    heap w !! l' = None ∧
    X' = list_to_set (AStr <$> filter (λ t, t ≠ "") (split_from "" s')) ∧
    (AStr "" ∉ X') ∧
    (∀ a, a ∈ X' → ∃ t, a = AStr t ∧ t ≠ "") ∧
    (s' = "" → X' = ∅).
Proof using Type.
  intros Hb Hconv. rewrite decode_eq, Hb, result_process_string_str, Hconv.
  cbn [re_findall_not_comma]. rewrite new_set_eq.
  eexists _, _. split; [done|]. split; [apply fresh_loc_None|].
  split; [by rewrite findall_from_split|].
  assert (Hmem : ∀ a, a ∈ (list_to_set (AStr <$> findall_from "" s') : gset atom) →
                      ∃ t, a = AStr t ∧ t ≠ "").
  { intros a (t & -> & Ht)%elem_of_list_to_set%list_elem_of_fmap.
    exists t. split; [done|].
    by apply (proj1 (Forall_forall _ _) (findall_from_not_empty "" s')). }
  split; [|split; [done|]].
  - intros (t & [= <-] & Ht)%Hmem. done.
  - by intros ->.
Qed.

(** The members of a LabelSet come each once when it is iterated. *)
Lemma iter_order_labels_NoDup (S : gset string) (ss : list string) :
  iter_order (labels S) = AStr <$> ss → NoDup ss.
Proof using iter_order_perm.
  intros Hss. apply (NoDup_fmap_1 AStr). rewrite <- Hss.
  rewrite iter_order_perm. apply NoDup_elements.
Qed.

(** C2. String-mode round trip: with comma-free labels (construction has
    already refused the empty one) and base converters that undo each
    other on strings, a LabelSet drawn from the vocabulary is encoded,
    without any change to the store, as a string: what the base converter
    makes of the comma join of its members, each once, in whatever order
    they are iterated. That string decodes to a new set with the same
    members. *)
Theorem string_round_trip (vals : list string) (kw : kwargs) (cfg : SET)
    (h : gmap loc (gset atom)) (l : loc) (S : gset string) :
  SET_init vals kw = Ok cfg → retrieve_as_bitwise cfg = false →
  Forall (λ v, comma_free v = true) vals →
  (∀ s, ∃ s', convert super_bind (PStr s) = PStr s' ∧
              convert super_result (PStr s') = PStr s) →
  h !! l = Some (labels S) → (∀ s, s ∈ S → s ∈ vals) →
  ∃ (ss : list string) (s' : string) (l' : loc) (w' : world),
    iter_order (labels S) = AStr <$> ss ∧
    NoDup ss ∧ (∀ s, s ∈ ss ↔ s ∈ S) ∧
    convert super_bind (PStr (String.concat "," ss)) = PStr s' ∧
    encode super_bind iter_order (PRef l) (mkWorld cfg h)
    = (Ok (PStr s'), mkWorld cfg h) ∧
    decode super_result int_str (PStr s') (mkWorld cfg h)
    = (Ok (PRef l'), w') ∧
    h !! l' = None ∧
    heap w' !! l' = Some (labels S).
Proof using iter_order_perm.
  intros Hinit Hb Hcomma Hconv Hl Hsub.
  destruct (SET_init_Ok _ _ _ Hinit) as (_ & _ & _ & Hblank).
  destruct (iter_order_labels S) as (ss & Hss & Hmem).
  destruct (Hconv (String.concat "," ss)) as (s' & Hs' & Hback).
  exists ss, s'. eexists _, _.
  split; [done|]. split; [by apply (iter_order_labels_NoDup S)|].
  split; [done|]. split; [done|]. split; [|split; [|split]].
  - rewrite encode_eq. cbn [self]. rewrite Hb.
    rewrite (bind_process_string_set l (labels S)) by done.
    by rewrite Hss, str_join_strs, Hs'.
  - rewrite decode_eq. cbn [self]. rewrite Hb.
    rewrite result_process_string_str, Hback. cbn [re_findall_not_comma].
    by rewrite new_set_eq.
  - apply fresh_loc_None.
  - cbn [heap]. rewrite lookup_insert_eq. f_equal.
    rewrite findall_join, <- Hss; [apply list_to_set_iter_order|].
    apply Forall_forall. intros s Hs%Hmem%Hsub. split.
    + intros ->. by apply Hblank.
    + by apply (proj1 (Forall_forall _ _) Hcomma).
Qed.




End Codec.

(** The set iteration order used in the examples: that of [elements]. *)
Lemma elements_order_perm (X : gset atom) : elements X ≡ₚ elements X.
Proof. reflexivity. Qed.

Lemma bind_bitwise_None_witness :
  ∃ cfg, SET_init ["a"; "b"] (kw_bitwise true) = Ok cfg ∧
         encode None elements PNone (mkWorld cfg ∅) = (Ok PNone, mkWorld cfg ∅).
Proof.
  eexists. split; [reflexivity|].
  apply (bind_bitwise_None None elements). reflexivity.
Defined.

(** C5, as the claim has it, fails in string mode: against the vocabulary
    [("foo", "bar")] the set [{"unknown"}] is encoded as ["unknown"]. *)
Lemma string_mode_accepts_unknown :
  ∃ cfg, SET_init ["foo"; "bar"] kw_default = Ok cfg ∧
         ("unknown" ∉ ["foo"; "bar"]) ∧
         encode None elements (PRef 1%positive)
           (mkWorld cfg {[ 1%positive := labels {["unknown"]} ]})
         = (Ok (PStr "unknown"),
            mkWorld cfg {[ 1%positive := labels {["unknown"]} ]}).
Proof.
  eexists. split; [reflexivity|]. split; [compute_done|].
  vm_compute. reflexivity.
Qed.

Lemma invalid_member_rejected_witness :
  ∃ cfg, SET_init ["foo"; "bar"] (kw_bitwise true) = Ok cfg ∧
         encode None elements (PRef 1%positive)
           (mkWorld cfg {[ 1%positive := labels {["unknown"; "foo"]} ]})
         = (Raise KeyError,
            mkWorld cfg {[ 1%positive := labels {["unknown"; "foo"]} ]}).
Proof.
  eexists. split; [reflexivity|].
  refine (proj1 (invalid_member_rejected None elements elements_order_perm
    ["foo"; "bar"] (kw_bitwise true) _ _ 1%positive {["unknown"; "foo"]}
    "unknown" eq_refl _ _ _) eq_refl).
  - reflexivity.
  - compute_done.
  - compute_done.
Defined.

Lemma bitmask_round_trip_witness :
  ∃ cfg, SET_init ["a"; "b"; "c"] (kw_bitwise true) = Ok cfg ∧
  let w := mkWorld cfg {[ 1%positive := labels {["a"; "c"]} ]} in
  (∃ (n : Z) (l' : loc) (w' : world),
     encode None elements (PRef 1%positive) w = (Ok (PInt n), w) ∧
     decode None (λ _, Raise ValueError) (PInt n) w = (Ok (PRef l'), w') ∧
     heap w' !! l' = Some (labels {["a"; "c"]}) ∧
     (({["a"; "c"]} : gset string) = ∅ → n = 0)) ∧
  (∃ (l0 : loc) (w0 : world),
     decode None (λ _, Raise ValueError) (PInt 0) w = (Ok (PRef l0), w0) ∧
     heap w0 !! l0 = Some ∅).
Proof.
  eexists. split; [reflexivity|].
  apply (bitmask_round_trip None None (λ _, Raise ValueError) elements
           elements_order_perm ["a"; "b"; "c"] (kw_bitwise true)).
  - reflexivity.
  - reflexivity.
  - reflexivity.
  - intros s Hs. revert Hs. rewrite !elem_of_union, !elem_of_singleton.
    intros [->| ->]; compute_done.
Defined.

Lemma invalid_bit_rejected_witness :
  ∃ cfg, SET_init ["a"; "b"; "c"] (kw_bitwise true) = Ok cfg ∧
         decode None (λ _, Raise ValueError) (PInt 8) (mkWorld cfg ∅)
         = (Raise KeyError, mkWorld cfg ∅).
Proof.
  eexists. split; [reflexivity|].
  apply (invalid_bit_rejected None (λ _, Raise ValueError)
           ["a"; "b"; "c"] (kw_bitwise true) _ ∅ 8 3%nat);
    reflexivity || lia.
Defined.

Lemma decode_discards_empty_fragments_witness :
  ∃ cfg, SET_init ["foo"; "bar"] kw_default = Ok cfg ∧
  ∃ (l' : loc) (X' : gset atom),
    decode None (λ _, Raise ValueError) (PStr "") (mkWorld cfg ∅)
    = (Ok (PRef l'), mkWorld cfg (<[l' := X']> ∅)) ∧
    X' = ∅.
Proof.
  eexists. split; [reflexivity|].
  destruct (decode_discards_empty_fragments None (λ _, Raise ValueError)
              (mkWorld (mkSET false ["foo"; "bar"] None 3) ∅) "" "" eq_refl eq_refl)
    as (l' & X' & Hdec & _ & _ & _ & _ & Hempty).
  exists l', X'. split; [exact Hdec | by apply Hempty].
Defined.

Lemma string_round_trip_witness :
  ∃ cfg, SET_init ["foo"; "bar"; "baz"] kw_default = Ok cfg ∧
  let w := mkWorld cfg {[ 1%positive := labels {["bar"; "baz"]} ]} in
  ∃ (ss : list string) (s' : string) (l' : loc) (w' : world),
    elements (labels {["bar"; "baz"]}) = AStr <$> ss ∧
    NoDup ss ∧ (∀ s, s ∈ ss ↔ s ∈ ({["bar"; "baz"]} : gset string)) ∧
    convert None (PStr (String.concat "," ss)) = PStr s' ∧
    encode None elements (PRef 1%positive) w = (Ok (PStr s'), w) ∧
    decode None (λ _, Raise ValueError) (PStr s') w = (Ok (PRef l'), w') ∧
    heap w !! l' = None ∧
    heap w' !! l' = Some (labels {["bar"; "baz"]}).
Proof.
  eexists. split; [reflexivity|].
  apply (string_round_trip None None (λ _, Raise ValueError) elements
           elements_order_perm ["foo"; "bar"; "baz"] kw_default).
  - reflexivity.
  - reflexivity.
  - by repeat constructor.
  - intros s. by exists s.
  - reflexivity.
  - intros s Hs. revert Hs. rewrite !elem_of_union, !elem_of_singleton.
    intros [->| ->]; compute_done.
Defined.


(** ** The length hint *)

Lemma max_len_cons (v : string) (vals : list string) :
  max_len (v :: vals) = Nat.max (py_len v) (max_len vals).
Proof. reflexivity. Qed.

Lemma max_len_ge (vals : list string) (v : string) :
  v ∈ vals → (py_len v ≤ max_len vals)%nat.
Proof.
  induction vals as [|u vals IH]; [by intros ?%elem_of_nil|].
  rewrite max_len_cons. intros [->|Hv%IH]%elem_of_cons; lia.
Qed.

Lemma max_len_attained (vals : list string) :
  vals ≠ [] → ∃ v, v ∈ vals ∧ py_len v = max_len vals.
Proof.
  induction vals as [|u vals IH]; [done|]. intros _. rewrite max_len_cons.
  destruct vals as [|u' vals].
  - exists u. split; [by left|]. unfold max_len. simpl. lia.
  - destruct IH as (v & Hv & Hlen); [done|].
    destruct (Nat.max_spec (py_len u) (max_len (u' :: vals)))
      as [[_ ->]|[_ ->]].
    + exists v. split; [by right | done].
    + exists u. split; [by left | done].
Qed.

(** X1. The length handed to the base type is the one the caller gave, and
    otherwise the length, in code points, of a longest label: no label is
    longer, some label is that long, and it is [0] for the empty
    vocabulary. *)
Theorem length_hint (vals : list string) (kw : kwargs) (cfg : SET) :
  SET_init vals kw = Ok cfg →
  match kw_length kw with
  | Some n => length cfg = n
  | None =>
    (∀ v, v ∈ vals → (py_len v ≤ length cfg)%nat) ∧
    (vals = [] → length cfg = 0%nat) ∧
    (vals ≠ [] → ∃ v, v ∈ vals ∧ py_len v = length cfg)
  end.
Proof.
  unfold SET_init. destruct (_ && _); [done|]. intros [= <-]. cbn [length].
  destruct (kw_length kw) as [n|]; [done|]. cbn [default].
  split; [apply max_len_ge|]. split; [by intros ->|apply max_len_attained].
Qed.

Lemma length_hint_witness :
  ∃ cfg, SET_init ["foo"; "barbaz"; "a"] kw_default = Ok cfg ∧
         (py_len "barbaz" ≤ length cfg)%nat.
Proof.
  eexists. split; [reflexivity|].
  apply (length_hint ["foo"; "barbaz"; "a"] kw_default _ eq_refl). compute_done.
Defined.

(** ** More on the bitmask codec *)

(** A non-negative integer with no bit set from position [k] on is below
    [2^k]. *)
Lemma below_pow2 (n : Z) (k : nat) :
  0 ≤ n → (∀ i : nat, (k ≤ i)%nat → Z.testbit n (Z.of_nat i) = false) →
  n < 2 ^ Z.of_nat k.
Proof.
  intros Hn Hbits. destruct (decide (n = 0)) as [->|Hne].
  - apply Z.pow_pos_nonneg; lia.
  - apply Z.log2_lt_pow2; [lia|].
    destruct (decide (Z.log2 n < Z.of_nat k)) as [|Hge]; [done|].
    pose proof (Z.log2_nonneg n).
    specialize (Hbits (Z.to_nat (Z.log2 n))). rewrite Z2Nat.id in Hbits by done.
    rewrite Z.bit_log2 in Hbits by lia. discriminate Hbits. lia.
Qed.

Lemma above_pow2_bit (n : Z) (k : nat) :
  2 ^ Z.of_nat k ≤ n →
  ∃ i : nat, (k ≤ i)%nat ∧ Z.testbit n (Z.of_nat i) = true.
Proof.
  intros Hn. assert (0 < n) by (pose proof (pow2_pos k); unfold pow2 in *; lia).
  pose proof (Z.log2_nonneg n).
  exists (Z.to_nat (Z.log2 n)). rewrite Z2Nat.id by done. split.
  - apply Z.log2_le_pow2 in Hn; lia.
  - by apply Z.bit_log2.
Qed.

Lemma below_pow2_bit (n : Z) (k i : nat) :
  0 ≤ n < 2 ^ Z.of_nat k → Z.testbit n (Z.of_nat i) = true → (i < k)%nat.
Proof.
  intros [Hn Hlt] Ht. destruct (decide (n = 0)) as [->|Hne].
  - by rewrite Z.bits_0 in Ht.
  - apply Z.log2_lt_pow2 in Hlt; [|lia].
    destruct (decide (i < k)%nat); [done|].
    rewrite Z.bits_above_log2 in Ht; [done|lia|lia].
Qed.

Lemma testbit_ext (n m : Z) :
  (∀ i : nat, Z.testbit n (Z.of_nat i) = true ↔ Z.testbit m (Z.of_nat i) = true) →
  n = m.
Proof.
  intros Hbits. apply Z.bits_inj'. intros j Hj.
  specialize (Hbits (Z.to_nat j)). rewrite Z2Nat.id in Hbits by done.
  apply Bool.eq_iff_eq_true, Hbits.
Qed.

(** A set of strings, seen as the LabelSet of its strings. *)
Lemma labels_strs (X : gset atom) :
  (∀ a, a ∈ X → ∃ s, a = AStr s) → labels (strs X) = X.
Proof.
  intros HX. apply set_eq. intros a. rewrite elem_of_labels. unfold strs. split.
  - intros (s & -> & (b & Hb & Hs)%elem_of_set_omap).
    destruct (HX b Hb) as (t & ->). simpl in Hs. by injection Hs as ->.
  - intros Ha. destruct (HX a Ha) as (s & ->). exists s. split; [done|].
    apply elem_of_set_omap. by exists (AStr s).
Qed.

Section CodecMore.

Variable super_bind : option (pyval → pyval).
Variable super_result : option (pyval → pyval).
Variable int_str : string → res Z.
Variable iter_order : gset atom → list atom.
Hypothesis iter_order_perm : ∀ X, iter_order X ≡ₚ elements X.

(** Encoding a LabelSet drawn from the vocabulary gives its mask. *)
Lemma encode_bitwise_labels (vals : list string) (w : world) (l : loc)
    (S : gset string) :
  retrieve_as_bitwise (self w) = true →
  _bitmap (self w) = Some (build_bitmap vals) →
  heap w !! l = Some (labels S) → (∀ s, s ∈ S → s ∈ vals) →
  encode super_bind iter_order (PRef l) w
  = (Ok (PInt (mask_of (build_bitmap vals) 0 (iter_order (labels S)))), w).
Proof using iter_order_perm.
  intros Hb Hd Hl Hsub. rewrite encode_eq, Hb.
  rewrite (bind_process_bitwise_set _ _ l (labels S)) by done.
  rewrite (ior_loop_ok (build_bitmap vals)); [done|done|].
  apply Forall_forall.
  intros a (s & -> & Hs)%(elem_of_iter_order _ iter_order_perm)%elem_of_labels.
  destruct (build_bitmap_label vals s (Hsub s Hs)) as (i & _ & Hi).
  by eexists.
Qed.

(** Encoding a LabelSet with a member outside the vocabulary. *)
Lemma encode_bitwise_unknown (vals : list string) (w : world) (l : loc)
    (S : gset string) (u : string) :
  retrieve_as_bitwise (self w) = true →
  _bitmap (self w) = Some (build_bitmap vals) →
  heap w !! l = Some (labels S) → u ∈ S → u ∉ vals →
  encode super_bind iter_order (PRef l) w = (Raise KeyError, w).
Proof using iter_order_perm.
  intros Hb Hd Hl Hu Hnot. rewrite encode_eq, Hb.
  rewrite (bind_process_bitwise_set _ _ l (labels S)) by done.
  rewrite (ior_loop_raise (build_bitmap vals)); [done|done| |].
  - apply (build_bitmap_labels vals S). intros a.
    by rewrite (elem_of_iter_order _ iter_order_perm).
  - apply Exists_exists. exists (AStr u). split.
    + apply (elem_of_iter_order _ iter_order_perm), elem_of_labels. by exists u.
    + by apply build_bitmap_label_None.
Qed.

(** With distinct labels, the mask has bit [i] set exactly when the label at
    position [i] is a member. *)
Lemma mask_of_labels_NoDup (vals : list string) (S : gset string) (i : nat) :
  NoDup vals → (∀ s, s ∈ S → s ∈ vals) →
  Z.testbit (mask_of (build_bitmap vals) 0 (iter_order (labels S))) (Z.of_nat i)
    = true ↔
  ∃ v, vals !! i = Some v ∧ v ∈ S.
Proof using iter_order_perm.
  intros Hnd Hsub. rewrite (mask_of_labels _ iter_order_perm) by done. split.
  - intros (s & Hs & (j & Hj & [= ->%(inj pow2)])%build_bitmap_str_key).
    by exists s.
  - intros (v & Hv & Hs). exists v. split; [done|].
    by apply build_bitmap_label_NoDup.
Qed.

(** X2. What the encoded integer means: over a vocabulary of distinct
    labels, encoding a LabelSet drawn from it gives an integer in
    [0, 2^n) whose bit [i] is set exactly when the label at position [i] is
    a member. *)
Theorem bitmask_encode_bits (vals : list string) (kw : kwargs) (cfg : SET)
    (h : gmap loc (gset atom)) (l : loc) (S : gset string) :
  SET_init vals kw = Ok cfg → retrieve_as_bitwise cfg = true → NoDup vals →
  h !! l = Some (labels S) → (∀ s, s ∈ S → s ∈ vals) →
  ∃ n : Z,
    encode super_bind iter_order (PRef l) (mkWorld cfg h)
    = (Ok (PInt n), mkWorld cfg h) ∧
    0 ≤ n < 2 ^ Z.of_nat (List.length vals) ∧
    ∀ i : nat, Z.testbit n (Z.of_nat i) = true ↔ ∃ v, vals !! i = Some v ∧ v ∈ S.
Proof using iter_order_perm.
  intros Hinit Hb Hnd Hl Hsub.
  destruct (SET_init_Ok _ _ _ Hinit) as (_ & _ & Hd & _). rewrite Hb in Hd.
  eexists. split; [by apply (encode_bitwise_labels vals)|].
  split; [|intros i; by apply mask_of_labels_NoDup].
  split; [apply (mask_of_labels_nonneg _ iter_order_perm)|].
  apply below_pow2; [apply (mask_of_labels_nonneg _ iter_order_perm)|].
  intros i Hi. apply not_true_is_false.
  intros (v & Hv%lookup_lt_Some & _)%mask_of_labels_NoDup; [lia|done..].
Qed.

(** X10. Two LabelSets drawn from the vocabulary that are encoded as the
    same integer are the same set. *)
Theorem bitmask_encode_injective (vals : list string) (kw : kwargs) (cfg : SET)
    (h : gmap loc (gset atom)) (l1 l2 : loc) (S1 S2 : gset string) (n : Z) :
  SET_init vals kw = Ok cfg → retrieve_as_bitwise cfg = true →
  h !! l1 = Some (labels S1) → (∀ s, s ∈ S1 → s ∈ vals) →
  h !! l2 = Some (labels S2) → (∀ s, s ∈ S2 → s ∈ vals) →
  encode super_bind iter_order (PRef l1) (mkWorld cfg h)
  = (Ok (PInt n), mkWorld cfg h) →
  encode super_bind iter_order (PRef l2) (mkWorld cfg h)
  = (Ok (PInt n), mkWorld cfg h) →
  S1 = S2.
Proof using iter_order_perm.
  intros Hinit Hb Hl1 Hsub1 Hl2 Hsub2 He1 He2.
  destruct (SET_init_Ok _ _ _ Hinit) as (_ & _ & Hd & _). rewrite Hb in Hd.
  rewrite (encode_bitwise_labels vals _ l1 S1) in He1 by done.
  rewrite (encode_bitwise_labels vals _ l2 S2) in He2 by done.
  injection He1 as He1. injection He2 as He2.
  assert (Hincl : ∀ Sa Sb : gset string,
    (∀ s, s ∈ Sa → s ∈ vals) → (∀ s, s ∈ Sb → s ∈ vals) →
    mask_of (build_bitmap vals) 0 (iter_order (labels Sa)) =
    mask_of (build_bitmap vals) 0 (iter_order (labels Sb)) →
    ∀ s, s ∈ Sa → s ∈ Sb).
  { intros Sa Sb Ha Hb' Heq s Hs.
    destruct (build_bitmap_label vals s (Ha s Hs)) as (i & Hi & Hdi).
    assert (Hbit : Z.testbit (mask_of (build_bitmap vals) 0 (iter_order (labels Sa)))
                     (Z.of_nat i) = true).
    { apply (mask_of_labels _ iter_order_perm); [done|]. by exists s. }
    rewrite Heq in Hbit.
    apply (mask_of_labels _ iter_order_perm) in Hbit as (s' & Hs' & Hd'); [|done].
    apply build_bitmap_str_key in Hd' as (j & Hj & [= ->%(inj pow2)]).
    congruence. }
  apply set_eq. intros s.
  split; [apply (Hincl S1 S2) | apply (Hincl S2 S1)]; done || congruence.
Qed.

Lemma result_process_bitwise_unlabelled (d : gmap atom atom) (n : Z) (i : nat)
    (w : world) :
  _bitmap (self w) = Some d → 0 ≤ n →
  Z.testbit n (Z.of_nat i) = true → d !! AInt (pow2 i) = None →
  result_process_bitwise int_str (PInt n) w = (Raise KeyError, w).
Proof using Type.
  intros Hd Hn Ht Hnone. rewrite (result_process_bitwise_int _ d) by done.
  unfold map_bits. rewrite (mapM_res_raise _ _ KeyError); [done| |].
  - intros b e. unfold compose, dict_getitem.
    destruct (d !! AInt b); [done|]. by intros [= <-].
  - exists (pow2 i), KeyError. split.
    + apply elem_of_bits_below. exists i. eauto using set_bit_below.
    + unfold compose, dict_getitem. by rewrite Hnone.
Qed.

(** Decoding an integer of [0, 2^n) over [n] labels. *)
Lemma result_process_bitwise_in_range (vals : list string) (n : Z) (w : world) :
  _bitmap (self w) = Some (build_bitmap vals) →
  0 ≤ n < 2 ^ Z.of_nat (List.length vals) →
  ∃ (l' : loc) (X' : gset atom),
    result_process_bitwise int_str (PInt n) w
    = (Ok (PRef l'), mkWorld (self w) (<[l' := X']> (heap w))) ∧
    heap w !! l' = None ∧
    ∀ a, a ∈ X' ↔
         ∃ (i : nat) (v : string),
           Z.testbit n (Z.of_nat i) = true ∧ vals !! i = Some v ∧ a = AStr v.
Proof using Type.
  intros Hd Hn. apply (result_process_bitwise_ok int_str vals n w); [done|lia|].
  intros i Hi. apply lookup_lt_is_Some. by apply (below_pow2_bit n).
Qed.

(** X4. Which integers decode: in bitmask mode an integer decodes exactly
    when it lies in [0, 2^n) for a vocabulary of [n] labels, to a new set of
    the labels at the positions of its set bits, every object of the store
    kept; any other integer raises [KeyError] and changes nothing. *)
Theorem bitmask_decode_domain (vals : list string) (kw : kwargs) (cfg : SET)
    (h : gmap loc (gset atom)) (n : Z) :
  SET_init vals kw = Ok cfg → retrieve_as_bitwise cfg = true →
  (0 ≤ n < 2 ^ Z.of_nat (List.length vals) →
   ∃ (l' : loc) (X' : gset atom),
     decode super_result int_str (PInt n) (mkWorld cfg h)
     = (Ok (PRef l'), mkWorld cfg (<[l' := X']> h)) ∧
     h !! l' = None ∧
     ∀ a, a ∈ X' ↔
          ∃ (i : nat) (v : string),
            Z.testbit n (Z.of_nat i) = true ∧ vals !! i = Some v ∧ a = AStr v) ∧
  (¬ (0 ≤ n < 2 ^ Z.of_nat (List.length vals)) →
   decode super_result int_str (PInt n) (mkWorld cfg h)
   = (Raise KeyError, mkWorld cfg h)).
Proof using Type.
  intros Hinit Hb.
  destruct (SET_init_Ok _ _ _ Hinit) as (_ & _ & Hd & _). rewrite Hb in Hd.
  split; intros Hn; rewrite decode_eq; cbn [self]; rewrite Hb.
  - by apply (result_process_bitwise_in_range vals n (mkWorld cfg h)).
  - destruct (decide (n < 0)) as [Hneg|Hpos].
    + by apply (result_process_bitwise_negative _ (build_bitmap vals)).
    + destruct (above_pow2_bit n (List.length vals)) as (i & Hi & Ht); [lia|].
      apply (result_process_bitwise_unlabelled (build_bitmap vals) n i);
        [done|lia|done|].
      destruct (build_bitmap vals !! AInt (pow2 i)) as [x|] eqn:Hx; [|done].
      apply build_bitmap_int_key in Hx as (j & v & ->%(inj pow2) & Hj%lookup_lt_Some & _).
      lia.
Qed.

(** X5. The round trip the other way: over a vocabulary of [n] distinct
    labels, every integer in [0, 2^n) decodes to a set that is encoded as
    that same integer. *)
Theorem bitmask_decode_encode (vals : list string) (kw : kwargs) (cfg : SET)
    (h : gmap loc (gset atom)) (n : Z) :
  SET_init vals kw = Ok cfg → retrieve_as_bitwise cfg = true → NoDup vals →
  0 ≤ n < 2 ^ Z.of_nat (List.length vals) →
  ∃ (l' : loc) (w' : world),
    decode super_result int_str (PInt n) (mkWorld cfg h) = (Ok (PRef l'), w') ∧
    encode super_bind iter_order (PRef l') w' = (Ok (PInt n), w').
Proof using iter_order_perm.
  intros Hinit Hb Hnd Hn.
  destruct (SET_init_Ok _ _ _ Hinit) as (_ & _ & Hd & _). rewrite Hb in Hd.
  destruct (result_process_bitwise_in_range vals n (mkWorld cfg h))
    as (l' & X' & Hdec & _ & HX'); [done..|].
  exists l', (mkWorld cfg (<[l' := X']> h)).
  split; [by rewrite decode_eq; cbn [self]; rewrite Hb|].
  assert (Hstrs : labels (strs X') = X').
  { apply labels_strs. intros a (i & v & _ & _ & ->)%HX'. by exists v. }
  assert (Hsub : ∀ s, s ∈ strs X' → s ∈ vals).
  { intros s Hs. assert (Ha : AStr s ∈ X').
    { rewrite <- Hstrs. apply elem_of_labels. by exists s. }
    apply HX' in Ha as (i & v & _ & Hv & [= ->]).
    apply list_elem_of_lookup. by exists i. }
  rewrite (encode_bitwise_labels vals _ l' (strs X')); [|done|done| |done].
  2: { cbn [heap]. by rewrite lookup_insert_eq, Hstrs. }
  assert (Hmask : mask_of (build_bitmap vals) 0 (iter_order (labels (strs X'))) = n);
    [|by rewrite Hmask].
  apply testbit_ext. intros i.
  rewrite mask_of_labels_NoDup by done. split.
  - intros (v & Hv & Hs). assert (Ha : AStr v ∈ X').
    { rewrite <- Hstrs. apply elem_of_labels. by exists v. }
    apply HX' in Ha as (j & v' & Ht & Hj & [= <-]).
    by rewrite (NoDup_lookup _ _ _ _ Hnd Hv Hj).
  - intros Ht. destruct (lookup_lt_is_Some_2 vals i) as (v & Hv).
    { by apply (below_pow2_bit n). }
    exists v. split; [done|].
    assert (Ha : AStr v ∈ X') by (apply HX'; by exists i, v).
    rewrite <- Hstrs in Ha. by apply elem_of_labels in Ha as (s & [= <-] & Hs).
Qed.

End CodecMore.

Lemma bitmask_encode_bits_witness :
  ∃ cfg n, SET_init ["a"; "b"; "c"] (kw_bitwise true) = Ok cfg ∧
    encode None elements (PRef 1%positive)
      (mkWorld cfg {[ 1%positive := labels {["a"; "c"]} ]})
    = (Ok (PInt n), mkWorld cfg {[ 1%positive := labels {["a"; "c"]} ]}) ∧
    0 ≤ n < 8.
Proof.
  destruct (bitmask_encode_bits None elements elements_order_perm
              ["a"; "b"; "c"] (kw_bitwise true) _
              {[ 1%positive := labels {["a"; "c"]} ]} 1%positive {["a"; "c"]}
              eq_refl eq_refl) as (n & Henc & Hn & _).
  - compute_done.
  - reflexivity.
  - intros s Hs. revert Hs. rewrite !elem_of_union, !elem_of_singleton.
    intros [->| ->]; compute_done.
  - eexists _, n. split; [reflexivity|]. split; [exact Henc | exact Hn].
Defined.

Lemma bitmask_encode_injective_witness :
  ({["a"; "c"]} : gset string) = {["c"; "a"]}.
Proof.
  apply (bitmask_encode_injective None elements elements_order_perm
           ["a"; "b"; "c"] (kw_bitwise true) _
           {[ 1%positive := labels {["a"; "c"]}; 2%positive := labels {["c"; "a"]} ]}
           1%positive 2%positive {["a"; "c"]} {["c"; "a"]} 5 eq_refl eq_refl).
  - reflexivity.
  - intros s Hs. revert Hs. rewrite !elem_of_union, !elem_of_singleton.
    intros [->| ->]; compute_done.
  - reflexivity.
  - intros s Hs. revert Hs. rewrite !elem_of_union, !elem_of_singleton.
    intros [->| ->]; compute_done.
  - by vm_compute.
  - by vm_compute.
Defined.

Lemma bitmask_decode_domain_witness :
  ∃ cfg, SET_init ["a"; "b"; "c"] (kw_bitwise true) = Ok cfg ∧
    decode None (λ _, Raise ValueError) (PInt 9) (mkWorld cfg ∅)
    = (Raise KeyError, mkWorld cfg ∅).
Proof.
  eexists. split; [reflexivity|].
  apply (bitmask_decode_domain None (λ _, Raise ValueError)
           ["a"; "b"; "c"] (kw_bitwise true) _ ∅ 9 eq_refl eq_refl).
  simpl. lia.
Defined.

Lemma bitmask_decode_encode_witness :
  ∃ cfg (l' : loc) (w' : world),
    SET_init ["a"; "b"; "c"] (kw_bitwise true) = Ok cfg ∧
    decode None (λ _, Raise ValueError) (PInt 6) (mkWorld cfg ∅)
    = (Ok (PRef l'), w') ∧
    encode None elements (PRef l') w' = (Ok (PInt 6), w').
Proof.
  destruct (bitmask_decode_encode None None (λ _, Raise ValueError) elements
              elements_order_perm ["a"; "b"; "c"] (kw_bitwise true) _ ∅ 6
              eq_refl eq_refl) as (l' & w' & Hdec & Henc).
  - compute_done.
  - simpl. lia.
  - eexists _, l', w'. split; [reflexivity|]. split; [exact Hdec | exact Henc].
Defined.

Section IterationOrders.

Variable super_bind : option (pyval → pyval).
Variables iter1 iter2 : gset atom → list atom.
Hypothesis iter1_perm : ∀ X, iter1 X ≡ₚ elements X.
Hypothesis iter2_perm : ∀ X, iter2 X ≡ₚ elements X.

(** X3. In bitmask mode the outcome of encoding a LabelSet does not depend
    on the order in which the set is iterated: the same integer, or
    [KeyError] when a member is outside the vocabulary. *)
Theorem bitmask_encode_order_independent (vals : list string) (kw : kwargs)
    (cfg : SET) (h : gmap loc (gset atom)) (l : loc) (S : gset string) :
  SET_init vals kw = Ok cfg → retrieve_as_bitwise cfg = true →
  h !! l = Some (labels S) →
  encode super_bind iter1 (PRef l) (mkWorld cfg h)
  = encode super_bind iter2 (PRef l) (mkWorld cfg h).
Proof using iter1_perm iter2_perm.
  intros Hinit Hb Hl.
  destruct (SET_init_Ok _ _ _ Hinit) as (_ & _ & Hd & _). rewrite Hb in Hd.
  destruct (decide (set_Forall (λ s, s ∈ vals) S)) as [Hsub|Hnot].
  - rewrite (encode_bitwise_labels _ _ iter1_perm vals _ l S) by done.
    rewrite (encode_bitwise_labels _ _ iter2_perm vals _ l S) by done.
    assert (Hmask : mask_of (build_bitmap vals) 0 (iter1 (labels S))
                    = mask_of (build_bitmap vals) 0 (iter2 (labels S)));
      [|by rewrite Hmask].
    apply testbit_ext. intros i.
    by rewrite (mask_of_labels _ iter1_perm), (mask_of_labels _ iter2_perm).
  - apply not_set_Forall_Exists in Hnot as (u & Hu & Hnot); [|apply _].
    rewrite (encode_bitwise_unknown _ _ iter1_perm vals _ l S u) by done.
    by rewrite (encode_bitwise_unknown _ _ iter2_perm vals _ l S u).
Qed.

End IterationOrders.

Lemma reverse_order_perm (X : gset atom) : reverse (elements X) ≡ₚ elements X.
Proof. apply reverse_Permutation. Qed.

Lemma bitmask_encode_order_independent_witness :
  ∃ cfg, SET_init ["a"; "b"; "c"] (kw_bitwise true) = Ok cfg ∧
    encode None elements (PRef 1%positive)
      (mkWorld cfg {[ 1%positive := labels {["a"; "c"]} ]})
    = encode None (λ X, reverse (elements X)) (PRef 1%positive)
      (mkWorld cfg {[ 1%positive := labels {["a"; "c"]} ]}).
Proof.
  eexists. split; [reflexivity|].
  by apply (bitmask_encode_order_independent None elements
              (λ X, reverse (elements X)) elements_order_perm reverse_order_perm
              ["a"; "b"; "c"] (kw_bitwise true) _ _ 1%positive {["a"; "c"]}).
Defined.

(** ** More on decoding and on the string codec *)

Section DecodeMore.

Variable super_bind : option (pyval → pyval).
Variable super_result : option (pyval → pyval).
Variable int_str : string → res Z.
Variable iter_order : gset atom → list atom.
Hypothesis iter_order_perm : ∀ X, iter_order X ≡ₚ elements X.

Lemma result_process_bitwise_not_None (v : pyval) (w w' : world) :
  v ≠ PNone → result_process_bitwise int_str v w ≠ (Ok PNone, w').
Proof using Type.
  assert (Hgo : ∀ r : res Z,
    (n ← lift r; d ← get_bitmap;
     labels ← lift (map_bits (S (size d)) (dict_getitem d ∘ AInt) n);
     new_set labels) w ≠ (Ok PNone, w')).
  { intros [n|e]; [|done].
    unfold get_bitmap, get_self, mbind, M_bind, mret, M_ret, raise, lift.
    destruct (_bitmap (self w)) as [d|]; [|done].
    by destruct (map_bits _ _ n) as [ys|e]. }
  intros Hv. destruct v as [|[s|n]|l]; [done| | |done].
  - apply (Hgo (int_str s)).
  - apply (Hgo (Ok n)).
Qed.

(** X6. NULL on the way in: in either mode the result processor returns
    [None] exactly when it is given [None], and then changes nothing; a NULL
    column never comes out as an empty set, nor a value as [None]. *)
Theorem decode_None_iff (v : pyval) (w w' : world) :
  decode super_result int_str v w = (Ok PNone, w') ↔ v = PNone ∧ w' = w.
Proof using Type.
  rewrite decode_eq. split.
  - destruct (retrieve_as_bitwise (self w)).
    + destruct v as [|a|l]; [by intros [= <-]|..];
        intros Hdec; by apply result_process_bitwise_not_None in Hdec.
    + destruct v as [|[s|n]|l]; [by intros [= <-]| |done|].
      * rewrite result_process_string_str.
        by destruct (re_findall_not_comma _).
      * unfold result_process_string, discard, mbind, M_bind.
        by destruct (heap w !! l).
  - intros [-> ->]. by destruct (retrieve_as_bitwise (self w)).
Qed.

Lemma result_process_string_set (l : loc) (X : gset atom) (w : world) :
  heap w !! l = Some X →
  result_process_string super_result (PRef l) w
  = (Ok (PRef l), mkWorld (self w) (<[l := X ∖ {[AStr ""]}]> (heap w))).
Proof using Type.
  intros Hl. unfold result_process_string, discard, mbind, M_bind.
  by rewrite Hl.
Qed.

(** X7. The two driver behaviours meet: in string mode, with a base
    converter that keeps the string, decoding the raw string and decoding
    the set that a driver's naive split on commas made of it give sets with
    the same members. *)
Theorem drivers_agree (w : world) (s : string) (l : loc) :
  retrieve_as_bitwise (self w) = false →
  convert super_result (PStr s) = PStr s →
  heap w !! l = Some (list_to_set (AStr <$> split_from "" s)) →
  ∃ (l1 : loc) (w1 w2 : world),
    decode super_result int_str (PStr s) w = (Ok (PRef l1), w1) ∧
    decode super_result int_str (PRef l) w = (Ok (PRef l), w2) ∧
    heap w1 !! l1 = heap w2 !! l.
Proof using Type.
  intros Hb Hconv Hl. rewrite !decode_eq, Hb.
  rewrite result_process_string_str, Hconv. cbn [re_findall_not_comma].
  rewrite new_set_eq, (result_process_string_set l _ w Hl).
  eexists _, _, _. split; [done|]. split; [done|]. cbn [heap].
  rewrite !lookup_insert_eq. f_equal. apply set_eq. intros a.
  rewrite findall_from_split, elem_of_difference, !elem_of_list_to_set,
    !list_elem_of_fmap, elem_of_singleton.
  split.
  - intros (t & -> & [Hne Ht]%list_elem_of_filter). split; [by exists t|].
    by intros [= ->].
  - intros [(t & -> & Ht) Hne]. exists t. split; [done|].
    apply list_elem_of_filter. split; [|done]. by intros ->.
Qed.

(** X8. Normalising a pre-split set is idempotent: in string mode, decoding
    a set returns that set without [""], and decoding it again returns it
    once more and changes nothing. *)
Theorem presplit_decode_idempotent (w : world) (l : loc) (X : gset atom) :
  retrieve_as_bitwise (self w) = false → heap w !! l = Some X →
  ∃ w1 : world,
    decode super_result int_str (PRef l) w = (Ok (PRef l), w1) ∧
    heap w1 !! l = Some (X ∖ {[AStr ""]}) ∧
    decode super_result int_str (PRef l) w1 = (Ok (PRef l), w1).
Proof using Type.
  intros Hb Hl. eexists. rewrite !decode_eq. cbn [self]. rewrite Hb.
  rewrite (result_process_string_set l X w Hl).
  split; [done|]. cbn [heap]. rewrite lookup_insert_eq. split; [done|].
  rewrite (result_process_string_set l (X ∖ {[AStr ""]})).
  - cbn [self heap]. rewrite insert_insert_eq.
    assert (Hidem : (X ∖ {[AStr ""]}) ∖ {[AStr ""]} = X ∖ {[AStr ""]}).
    { apply set_eq. intros a. rewrite !elem_of_difference. tauto. }
    by rewrite Hidem, Hb.
  - cbn [heap]. by rewrite lookup_insert_eq.
Qed.

(** X11. String mode never consults the vocabulary: whatever the type was
    constructed with, any set of non-empty comma-free strings is encoded,
    the store unchanged, as the string that the base converter makes of the
    comma join of its members in iteration order, and that string is
    decoded to a new set with the same members (the base converters undoing
    each other on strings). *)
Theorem string_round_trip_any_labels (w : world) (l : loc) (S : gset string) :
  retrieve_as_bitwise (self w) = false →
  (∀ s, ∃ s', convert super_bind (PStr s) = PStr s' ∧
              convert super_result (PStr s') = PStr s) →
  heap w !! l = Some (labels S) →
  (∀ s, s ∈ S → s ≠ "" ∧ comma_free s = true) →
  ∃ (ss : list string) (s' : string) (l' : loc) (w' : world),
    iter_order (labels S) = AStr <$> ss ∧
    NoDup ss ∧ (∀ s, s ∈ ss ↔ s ∈ S) ∧
    convert super_bind (PStr (String.concat "," ss)) = PStr s' ∧
    encode super_bind iter_order (PRef l) w = (Ok (PStr s'), w) ∧
    decode super_result int_str (PStr s') w = (Ok (PRef l'), w') ∧
    heap w !! l' = None ∧
    heap w' !! l' = Some (labels S).
Proof using iter_order_perm.
  intros Hb Hconv Hl Hok.
  destruct (iter_order_labels _ iter_order_perm S) as (ss & Hss & Hmem).
  destruct (Hconv (String.concat "," ss)) as (s' & Hs' & Hback).
  exists ss, s'. eexists _, _.
  split; [done|].
  split; [by apply (iter_order_labels_NoDup _ iter_order_perm S)|].
  split; [done|]. split; [done|]. split; [|split; [|split]].
  - rewrite encode_eq, Hb.
    rewrite (bind_process_string_set _ _ l (labels S)) by done.
    by rewrite Hss, str_join_strs, Hs'.
  - rewrite decode_eq, Hb.
    rewrite result_process_string_str, Hback. cbn [re_findall_not_comma].
    by rewrite new_set_eq.
  - apply fresh_loc_None.
  - cbn [heap]. rewrite lookup_insert_eq. f_equal.
    rewrite findall_join, <- Hss;
      [apply (list_to_set_iter_order _ iter_order_perm)|].
    apply Forall_forall. intros s Hs%Hmem. by apply Hok.
Qed.

End DecodeMore.

Lemma drivers_agree_witness :
  ∃ (l1 : loc) (w1 w2 : world),
    let w := mkWorld (mkSET false ["foo"; "bar"] None 3)
               {[ 1%positive := list_to_set (AStr <$> split_from "" "foo,,bar,") ]} in
    decode None (λ _, Raise ValueError) (PStr "foo,,bar,") w = (Ok (PRef l1), w1) ∧
    decode None (λ _, Raise ValueError) (PRef 1%positive) w
    = (Ok (PRef 1%positive), w2) ∧
    heap w1 !! l1 = heap w2 !! 1%positive.
Proof.
  apply (drivers_agree None (λ _, Raise ValueError)
           (mkWorld (mkSET false ["foo"; "bar"] None 3)
              {[ 1%positive := list_to_set (AStr <$> split_from "" "foo,,bar,") ]})
           "foo,,bar," 1%positive); reflexivity.
Defined.

Lemma presplit_decode_idempotent_witness :
  ∃ w1 : world,
    let w := mkWorld (mkSET false ["foo"; "bar"] None 3)
               {[ 1%positive := {[AStr ""; AStr "foo"]} ]} in
    decode None (λ _, Raise ValueError) (PRef 1%positive) w
    = (Ok (PRef 1%positive), w1) ∧
    heap w1 !! 1%positive = Some ({[AStr ""; AStr "foo"]} ∖ {[AStr ""]}) ∧
    decode None (λ _, Raise ValueError) (PRef 1%positive) w1
    = (Ok (PRef 1%positive), w1).
Proof.
  apply (presplit_decode_idempotent None (λ _, Raise ValueError)
           (mkWorld (mkSET false ["foo"; "bar"] None 3)
              {[ 1%positive := {[AStr ""; AStr "foo"]} ]})
           1%positive {[AStr ""; AStr "foo"]}); reflexivity.
Defined.

Lemma string_round_trip_any_labels_witness :
  ∃ (ss : list string) (s' : string) (l' : loc) (w' : world),
    let w := mkWorld (mkSET false ["foo"; "bar"] None 3)
               {[ 1%positive := labels {["quux"; "bar"]} ]} in
    elements (labels {["quux"; "bar"]}) = AStr <$> ss ∧
    NoDup ss ∧ (∀ s, s ∈ ss ↔ s ∈ ({["quux"; "bar"]} : gset string)) ∧
    convert None (PStr (String.concat "," ss)) = PStr s' ∧
    encode None elements (PRef 1%positive) w = (Ok (PStr s'), w) ∧
    decode None (λ _, Raise ValueError) (PStr s') w = (Ok (PRef l'), w') ∧
    heap w !! l' = None ∧
    heap w' !! l' = Some (labels {["quux"; "bar"]}).
Proof.
  apply (string_round_trip_any_labels None None (λ _, Raise ValueError) elements
           elements_order_perm
           (mkWorld (mkSET false ["foo"; "bar"] None 3)
              {[ 1%positive := labels {["quux"; "bar"]} ]})
           1%positive {["quux"; "bar"]}).
  - reflexivity.
  - intros s. by exists s.
  - reflexivity.
  - intros s Hs. revert Hs. rewrite !elem_of_union, !elem_of_singleton.
    by intros [->| ->].
Defined.

(** ** Blank labels and commas *)

Lemma comma_free_snoc (cur : string) (c : ascii) :
  comma_free cur = true → is_comma c = false →
  comma_free (cur +:+ String c "") = true.
Proof.
  intros Hcur Hc. induction cur as [|c' cur IH].
  - rewrite append_empty_l. simpl. by rewrite Hc.
  - simpl in Hcur. apply andb_true_iff in Hcur as [Hc' Hcur].
    rewrite append_cons. simpl. by rewrite Hc', IH.
Qed.

(** No fragment holds a comma. *)
Lemma findall_from_comma_free (cur s : string) :
  comma_free cur = true →
  Forall (λ t, comma_free t = true) (findall_from cur s).
Proof.
  assert (Hflush : ∀ t, comma_free t = true →
                        Forall (λ t, comma_free t = true) (flush t)).
  { intros [|c t] Ht; simpl; [done|]. by apply Forall_singleton. }
  revert cur. induction s as [|c s IH]; intros cur Hcur; [by apply Hflush|].
  rewrite findall_from_cons. destruct (is_comma c) eqn:Hc.
  - apply Forall_app. split; [by apply Hflush | by apply IH].
  - apply IH. by apply comma_free_snoc.
Qed.

Section Blank.

Variable super_bind : option (pyval → pyval).
Variable super_result : option (pyval → pyval).
Variable int_str : string → res Z.
Variable iter_order : gset atom → list atom.
Hypothesis iter_order_perm : ∀ X, iter_order X ≡ₚ elements X.

Lemma iter_order_empty : iter_order ∅ = [].
Proof using iter_order_perm.
  pose proof (iter_order_perm ∅) as Hperm. rewrite elements_empty in Hperm.
  by apply Permutation_nil_r in Hperm.
Qed.

Lemma iter_order_singleton (a : atom) : iter_order {[a]} = [a].
Proof using iter_order_perm.
  pose proof (iter_order_perm {[a]}) as Hperm.
  rewrite elements_singleton in Hperm. by apply Permutation_singleton_r in Hperm.
Qed.

(** X12. Why the blank label needs bitmask mode: in string mode the set
    holding only [""] and the empty set are encoded alike, while in bitmask
    mode, with [""] in the vocabulary, the first is encoded as a non-zero
    integer and the second as [0]. *)
Theorem blank_label_encoding (w : world) (l0 l1 : loc) :
  heap w !! l0 = Some (labels ∅) → heap w !! l1 = Some (labels {[""]}) →
  (retrieve_as_bitwise (self w) = false →
     encode super_bind iter_order (PRef l1) w
     = encode super_bind iter_order (PRef l0) w) ∧
  (∀ vals : list string,
     retrieve_as_bitwise (self w) = true →
     _bitmap (self w) = Some (build_bitmap vals) → "" ∈ vals →
     ∃ n : Z,
       encode super_bind iter_order (PRef l1) w = (Ok (PInt n), w) ∧ n ≠ 0 ∧
       encode super_bind iter_order (PRef l0) w = (Ok (PInt 0), w)).
Proof using iter_order_perm.
  intros Hl0 Hl1.
  assert (H0 : labels ∅ = ∅) by (unfold labels; apply set_map_empty).
  assert (H1 : labels {[""]} = {[AStr ""]}) by (unfold labels; apply set_map_singleton_L).
  split.
  - intros Hb. rewrite !encode_eq, Hb.
    rewrite (bind_process_string_set _ _ l1 _ _ Hl1).
    rewrite (bind_process_string_set _ _ l0 _ _ Hl0).
    by rewrite H0, H1, iter_order_empty, iter_order_singleton.
  - intros vals Hb Hd Hblank.
    destruct (build_bitmap_label vals "" Hblank) as (i & _ & Hi).
    exists (pow2 i). rewrite !encode_eq, Hb.
    rewrite (bind_process_bitwise_set _ _ l1 _ _ Hl1).
    rewrite (bind_process_bitwise_set _ _ l0 _ _ Hl0).
    rewrite H0, H1, iter_order_empty, iter_order_singleton.
    rewrite (ior_loop_ok (build_bitmap vals) w [AStr ""] 0 Hd).
    + unfold mask_of, bit_of. simpl. rewrite Hi. cbn [Z.lor].
      split; [done|]. split; [|done]. pose proof (pow2_pos i). lia.
    + apply Forall_singleton. by eexists.
Qed.

(** X13. A label with a comma cannot come back: in string mode no member of
    a decoded string holds a comma, so a string with one is never among
    them. *)
Theorem decode_members_comma_free (w : world) (s s' : string) :
  retrieve_as_bitwise (self w) = false →
  convert super_result (PStr s) = PStr s' →
  ∃ (l' : loc) (X' : gset atom),
    decode super_result int_str (PStr s) w
    = (Ok (PRef l'), mkWorld (self w) (<[l' := X']> (heap w))) ∧
    (∀ a, a ∈ X' → ∃ t, a = AStr t ∧ comma_free t = true) ∧
    (∀ v, comma_free v = false → AStr v ∉ X').
Proof using Type.
  intros Hb Hconv. rewrite decode_eq, Hb, result_process_string_str, Hconv.
  cbn [re_findall_not_comma]. rewrite new_set_eq.
  eexists _, _. split; [done|].
  assert (Hmem : ∀ a, a ∈ (list_to_set (AStr <$> findall_from "" s') : gset atom) →
                      ∃ t, a = AStr t ∧ comma_free t = true).
  { intros a (t & -> & Ht)%elem_of_list_to_set%list_elem_of_fmap.
    exists t. split; [done|].
    by apply (proj1 (Forall_forall _ _) (findall_from_comma_free "" s' eq_refl)). }
  split; [done|]. intros v Hv (t & [= <-] & Ht)%Hmem. congruence.
Qed.

End Blank.

Lemma blank_label_encoding_witness :
  let w := mkWorld (mkSET true ["a"; ""] (Some (build_bitmap ["a"; ""])) 1)
             {[ 1%positive := labels ∅; 2%positive := labels {[""]} ]} in
  ∃ n : Z,
    encode None elements (PRef 2%positive) w = (Ok (PInt n), w) ∧ n ≠ 0 ∧
    encode None elements (PRef 1%positive) w = (Ok (PInt 0), w).
Proof.
  refine (proj2 (blank_label_encoding None elements elements_order_perm
    (mkWorld (mkSET true ["a"; ""] (Some (build_bitmap ["a"; ""])) 1)
       {[ 1%positive := labels ∅; 2%positive := labels {[""]} ]})
    1%positive 2%positive eq_refl eq_refl) ["a"; ""] eq_refl eq_refl _).
  compute_done.
Defined.

Lemma decode_members_comma_free_witness :
  ∃ (l' : loc) (X' : gset atom),
    decode None (λ _, Raise ValueError) (PStr "a,b")
      (mkWorld (mkSET false ["a,b"] None 3) ∅)
    = (Ok (PRef l'), mkWorld (mkSET false ["a,b"] None 3) (<[l' := X']> ∅)) ∧
    AStr "a,b" ∉ X'.
Proof.
  destruct (decode_members_comma_free None (λ _, Raise ValueError)
              (mkWorld (mkSET false ["a,b"] None 3) ∅) "a,b" "a,b" eq_refl eq_refl)
    as (l' & X' & Hdec & _ & Hno).
  exists l', X'. split; [exact Hdec|]. by apply Hno.
Defined.

(** ** The worked examples *)

Example bitmap_a_b_c :
  build_bitmap ["a"; "b"; "c"] =
    list_to_map
      [(AStr "a", AInt 1); (AStr "b", AInt 2); (AStr "c", AInt 4);
       (AInt 1, AStr "a"); (AInt 2, AStr "b"); (AInt 4, AStr "c")].
Proof. by vm_compute. Qed.

Example encode_a_c :
  let w := mkWorld (mkSET true ["a"; "b"; "c"] (Some (build_bitmap ["a"; "b"; "c"])) 1)
             {[ 1%positive := labels {["a"; "c"]} ]} in
  encode None elements (PRef 1%positive) w = (Ok (PInt 5), w).
Proof. by vm_compute. Qed.

Example decode_5 :
  let w := mkWorld (mkSET true ["a"; "b"; "c"] (Some (build_bitmap ["a"; "b"; "c"])) 1) ∅ in
  decode None (λ _, Raise ValueError) (PInt 5) w
  = (Ok (PRef 1%positive),
     mkWorld (self w) {[ 1%positive := labels {["a"; "c"]} ]}).
Proof. by vm_compute. Qed.

Example decode_minus_1 :
  let w := mkWorld (mkSET true ["a"; "b"; "c"] (Some (build_bitmap ["a"; "b"; "c"])) 1) ∅ in
  decode None (λ _, Raise ValueError) (PInt (-1)) w = (Raise KeyError, w).
Proof. by vm_compute. Qed.

Example decode_bar_baz :
  let w := mkWorld (mkSET false ["foo"; "bar"; "baz"] None 3) ∅ in
  decode None (λ _, Raise ValueError) (PStr "bar,baz") w
  = (Ok (PRef 1%positive),
     mkWorld (self w) {[ 1%positive := labels {["bar"; "baz"]} ]}).
Proof. by vm_compute. Qed.

Example len_counts_code_points : max_len ["été"; "ab"] = 3%nat.
Proof. reflexivity. Qed.

Example findall_stray_commas :
  findall_from "" ",,bar,,baz," = ["bar"; "baz"].
Proof. reflexivity. Qed.
